(** * Supernode construction and tree maintenance of the ChatGPT tree view

    A shallow embedding of [chatgpt-tree-view/src/libs/mapping/merged-message.js]
    (class [MergedMessage]) together with the properties of its constructor,
    of the chain walk, of the chunk conversion, of delete-with-promotion and
    of the assistant-message merge.

    JavaScript objects are records whose optional properties are [option]s
    ([None] is [undefined]); objects used as maps are [gmap string _];
    arrays are lists; a [throw] is the [Throw] case of [Result]; loops that
    follow links of the raw tree take a fuel argument that the entry points
    instantiate with the height of the tree. *)

From stdpp Require Import gmap strings list fin_maps pretty.

Set Warnings "-register-all".

(** ** Exceptions *)

(** The errors the class can raise.  [TypeError] is the engine's error for a
    property read or a call on [undefined]; the others are the [new Error]
    sites of the source, one constructor per site. *)
Inductive JsError :=
  | TypeError
  | BranchNotLinear
  | LeafChildNotUser
  | UnexpectedContentType (contentType : string)
  | DalleChildCount
  | DalleChildNotAssistant
  | CodeBlockChildCount
  | UnexpectedEntry.

(** The message text of each [new Error(...)] of the source. *)
Definition message (e : JsError) : option string :=
  match e with
  | TypeError => None
  | BranchNotLinear =>
      Some "Assertion Error: Expected the assistant response branch to be linear"
  | LeafChildNotUser =>
      Some "Assertion Error: Expected leaf children to be user messages"
  | UnexpectedContentType ct =>
      Some ("Unexpected content type when building assistant message chunks: " +:+ ct)
  | DalleChildCount =>
      Some "Assertion Error: Expected the dalle message only has one child"
  | DalleChildNotAssistant =>
      Some "Assertion Error: Expected the child of the Dall-E message to be an Assistant message"
  | CodeBlockChildCount =>
      Some "Assertion Error: Expected the child of the code block message to only have one child"
  | UnexpectedEntry =>
      Some "Assertion Error: Unexpected entry message for Assistant Message Merging"
  end.

(** The errors the program itself raises (every [throw] of the source), as
    opposed to the engine's [TypeError]. *)
Definition isStructuralAssertion (e : JsError) : bool :=
  match e with TypeError => false | _ => true end.

Inductive Result (A : Type) :=
  | Ok (a : A)
  | Throw (e : JsError).
Arguments Ok {A} a.
Arguments Throw {A} e.

Definition bindR {A B} (r : Result A) (k : A → Result B) : Result B :=
  match r with Ok a => k a | Throw e => Throw e end.

(** ** Strings *)

(** [s.includes(pat)] *)
Fixpoint includes (s pat : string) : bool :=
  String.prefix pat s ||
  match s with
  | EmptyString => false
  | String _ s' => includes s' pat
  end.

(** [s.replace(pat, rep)] with a string pattern: the first occurrence only. *)
Fixpoint replace (s pat rep : string) : string :=
  if String.prefix pat s
  then rep +:+ String.substring (String.length pat) (String.length s - String.length pat) s
  else match s with
       | EmptyString => EmptyString
       | String c s' => String c (replace s' pat rep)
       end.

(** ** Raw messages *)

Record Author := mkAuthor {
  role : string;
  name : option string }.

(** An entry of [content.parts]: a string, or an inline object with its
    asset pointer. *)
Inductive RawPart :=
  | PartString (s : string)
  | PartObject (asset_pointer : string).

Record Content := mkContent {
  content_type : string;
  parts : option (list RawPart);
  text : option string }.

Record Attachment := mkAttachment {
  attachment_id : string;
  mime_type : string }.

Record AggregateResult := mkAggregateResult {
  code : option string }.

Record Metadata := mkMetadata {
  attachments : option (list Attachment);
  aggregate_result : option AggregateResult }.

(** Modelled from the spec: the raw message class is imported by the callers
    of this file and not defined in it; its fields are those of the data
    model (identifier, author, content, metadata, ordered child identifiers
    and the mapping from child identifier to child). *)
Inductive RawNode := mkRawNode {
  raw_id : string;
  raw_author : Author;
  raw_content : option Content;
  raw_metadata : option Metadata;
  raw_childrenIds : list string;
  raw_children : gmap string RawNode }.

(** Modelled from the spec: [isUserMessage()] of the raw message class, true
    iff [author.role] is ["user"]. *)
Definition isUserMessage (m : RawNode) : bool :=
  bool_decide (role (raw_author m) = "user").

(** The height of a raw tree: the bound on every walk along child links. *)
Fixpoint height (m : RawNode) : nat :=
  S (map_fold (λ _ c acc, height c `max` acc) 0 (raw_children m)).

(** ** Content parts *)

(** The payload of a chunk: a string for text, image and file chunks, the
    two-element array [[code, output]] for code chunks. *)
Inductive Payload :=
  | Str (s : string)
  | CodeOutput (code : string) (output : option string).

(** Modelled from the spec: [ContentPart] comes from [./util-models]; a value
    records the arguments of [new ContentPart(type, payload, mimeType)]. *)
Record ContentPart := mkContentPart {
  kind : string;
  payload : Payload;
  mimeType : option string }.

(** ** Human content extraction *)

(** [typeof part === 'string'], returning the string it holds. *)
Definition asString (part : RawPart) : option string :=
  match part with PartString s => Some s | PartObject _ => None end.

Definition contentFieldChunk (part : string) : ContentPart :=
  mkContentPart "text" (Str part) None.

Definition attachmentFieldChunk (attachment : Attachment) : ContentPart :=
  let type := if includes (mime_type attachment) "image" then "image" else "file" in
  mkContentPart type (Str (attachment_id attachment)) (Some (mime_type attachment)).

Definition loadUserMessage (rawUserMessage : RawNode) : list ContentPart :=
  let rawParts := default [] (raw_content rawUserMessage ≫= parts) in
  let rawAttachments := default [] (raw_metadata rawUserMessage ≫= attachments) in
  let filteredRawParts := omap asString rawParts in
  let contentFieldChunks := contentFieldChunk <$> filteredRawParts in
  let attachmentFieldChunks := attachmentFieldChunk <$> rawAttachments in
  attachmentFieldChunks ++ contentFieldChunks.

(** ** Chain walk *)

(** The [while] loop of [validateAndExtractLinkedList]; one unit of fuel per
    followed link, [None] when the fuel runs out. *)
Fixpoint walk (fuel : nat) (currentChild : option RawNode) (rawMessages : list RawNode)
  : option (Result (list RawNode)) :=
  match currentChild with
  | None => Some (Ok rawMessages)
  | Some cur =>
      if isUserMessage cur then Some (Ok rawMessages)
      else
        let rawMessages := rawMessages ++ [cur] in
        match raw_childrenIds cur with
        | [] => Some (Ok rawMessages)
        | [currentChildId] =>
            match fuel with
            | O => None
            | S fuel' => walk fuel' (raw_children cur !! currentChildId) rawMessages
            end
        | _ :: _ :: _ => Some (Throw BranchNotLinear)
        end
  end.

Definition validateAndExtractLinkedList (rawUserMessage : RawNode) (childId : string)
  : option (Result (list RawNode)) :=
  walk (height rawUserMessage) (raw_children rawUserMessage !! childId) [].

(** ** Chunk conversion *)

Definition partChunk (part : RawPart) : ContentPart :=
  match part with
  | PartString s => mkContentPart "text" (Str s) None
  | PartObject p => mkContentPart "image" (Str (replace p "file-service://" "")) None
  end.

(** The body of the [rawMessages.forEach] callback: the chunks one raw
    message pushes. *)
Definition messageChunks (rawMessage : RawNode) : Result (list ContentPart) :=
  match raw_content rawMessage with
  | None => Throw TypeError
  | Some content =>
      let contentType := content_type content in
      if bool_decide (contentType = "text") || bool_decide (contentType = "multimodal_text")
      then match parts content with
           | None => Throw TypeError
           | Some ps => Ok (partChunk <$> ps)
           end
      else if bool_decide (contentType = "execution_output")
      then Ok [mkContentPart "code"
                 (CodeOutput
                    (default "" ((raw_metadata rawMessage ≫= aggregate_result) ≫= code))
                    (text content))
                 None]
      else Throw (UnexpectedContentType contentType)
  end.

Fixpoint pushChunks (rawMessages : list RawNode) (chunks : list ContentPart)
  : Result (list ContentPart) :=
  match rawMessages with
  | [] => Ok chunks
  | rawMessage :: rest =>
      bindR (messageChunks rawMessage) (λ cs, pushChunks rest (chunks ++ cs))
  end.

Definition buildSingleAssistantMessage (rawMessages : list RawNode)
  : Result (list ContentPart) :=
  pushChunks rawMessages [].

(** ** Merged messages *)

(** An instance of [MergedMessage].  Every property but the identifier may be
    [undefined].  [children] is the own-property map of the value held by
    [this.children]: the elements of an array sit at their decimal indices,
    and a property holding [undefined] is not distinguished from an absent
    one, since the class only ever reads [this.children[k]].  The [parent]
    back-reference is left out: no operation below reads it. *)
Inductive MergedMessage := mkMergedMessage {
  message_id : string;
  userMessageChunks : option (list ContentPart);
  assistantBranches : option (list (list ContentPart));
  children : option (gmap string MergedMessage);
  childrenIds : option (list string);
  author : option Author;
  recipient : option string;
  content : option Content;
  meta : option Metadata }.

(** The property map of an array: element [i] under the key [pretty i]. *)
Definition arrayProps {A} (elements : list A) : gmap string A :=
  list_to_map (imap (λ i x, (pretty i, x)) elements).

(** The calls of [logError], by their message prefix. *)
Inductive LogEntry :=
  | FailedUserMessage (error : JsError)
  | FailedAssistantMessages (error : JsError).

(** ** The constructor *)

(** One call of the [childrenIds.map] callback: the leaf noted down for the
    branch and the chunks of the branch. *)
Definition exploreBranch (rawUserMessage : RawNode) (childId : string)
  : option (Result (option RawNode * list ContentPart)) :=
  match validateAndExtractLinkedList rawUserMessage childId with
  | None => None
  | Some (Throw e) => Some (Throw e)
  | Some (Ok rawMessages) =>
      let lastRawMessage := last rawMessages in
      Some (bindR (buildSingleAssistantMessage rawMessages)
                  (λ chunks, Ok (lastRawMessage, chunks)))
  end.

(** [childrenIds.map(...)]: the first branch that throws ends the map. *)
Fixpoint exploreBranches (rawUserMessage : RawNode) (childrenIds : list string)
  : option (Result (list (option RawNode * list ContentPart))) :=
  match childrenIds with
  | [] => Some (Ok [])
  | childId :: rest =>
      match exploreBranch rawUserMessage childId with
      | None => None
      | Some (Throw e) => Some (Throw e)
      | Some (Ok b) =>
          match exploreBranches rawUserMessage rest with
          | None => None
          | Some (Throw e) => Some (Throw e)
          | Some (Ok bs) => Some (Ok (b :: bs))
          end
      end
  end.

(** The state of the leaf aggregation: the [this.children] array and the log
    written by the nested constructor calls; with them, the error that ended
    the loop, if any. *)
Definition Aggregation : Type := list MergedMessage * list LogEntry * option JsError.

(** [leafChildren.forEach(...)] *)
Fixpoint pushLeafChildren (new : RawNode → option (MergedMessage * list LogEntry))
    (leafChildren : list (option RawNode))
    (children : list MergedMessage) (log : list LogEntry) : option Aggregation :=
  match leafChildren with
  | [] => Some (children, log, None)
  | None :: _ => Some (children, log, Some TypeError)
  | Some leafChild :: rest =>
      if isUserMessage leafChild then
        match new leafChild with
        | None => None
        | Some (child, entries) =>
            pushLeafChildren new rest (children ++ [child]) (log ++ entries)
        end
      else Some (children, log, Some LeafChildNotUser)
  end.

(** [leafMessages.forEach(...)]; an entry [None] is the [undefined] last
    element of an empty chain. *)
Fixpoint aggregateLeaves (new : RawNode → option (MergedMessage * list LogEntry))
    (leafMessages : list (option RawNode))
    (children : list MergedMessage) (log : list LogEntry) : option Aggregation :=
  match leafMessages with
  | [] => Some (children, log, None)
  | None :: _ => Some (children, log, Some TypeError)
  | Some leafMessage :: rest =>
      let leafChildrenIds := raw_childrenIds leafMessage in
      let leafChildren := (λ childId, raw_children leafMessage !! childId) <$> leafChildrenIds in
      match pushLeafChildren new leafChildren children log with
      | None => None
      | Some (children', log', Some e) => Some (children', log', Some e)
      | Some (children', log', None) => aggregateLeaves new rest children' log'
      end
  end.

(** [new MergedMessage(rawUserMessage, parent)]: the instance and the log
    entries written while it was built.  Each level of nested constructor
    calls takes one unit of fuel.

    The first [try] block assigns [userMessageChunks]; on a raw message whose
    fields have the types of the data model [loadUserMessage] has no throwing
    path, so its [catch] is never entered.  The second [try] block is the
    map over the outgoing ids followed by the leaf aggregation; whatever it
    throws is caught and logged, and the properties assigned before the
    throw keep their values. *)
Fixpoint construct (fuel : nat) (rawUserMessage : RawNode)
  : option (MergedMessage * list LogEntry) :=
  match fuel with
  | O => None
  | S fuel' =>
      let id := raw_id rawUserMessage in
      let userMessageChunks := Some (loadUserMessage rawUserMessage) in
      match exploreBranches rawUserMessage (raw_childrenIds rawUserMessage) with
      | None => None
      | Some (Throw error) =>
          Some (mkMergedMessage id userMessageChunks None None None None None None None,
                [FailedAssistantMessages error])
      | Some (Ok branches) =>
          let assistantBranches := snd <$> branches in
          let leafMessages := fst <$> branches in
          match aggregateLeaves (construct fuel') leafMessages [] [] with
          | None => None
          | Some (children, log, thrown) =>
              Some (mkMergedMessage id userMessageChunks (Some assistantBranches)
                      (Some (arrayProps children)) None None None None None,
                    log ++ match thrown with
                           | Some error => [FailedAssistantMessages error]
                           | None => []
                           end)
          end
      end
  end.

Definition newMergedMessage (rawUserMessage : RawNode)
  : option (MergedMessage * list LogEntry) :=
  construct (height rawUserMessage) rawUserMessage.

(** ** Delete with promotion *)

Definition setChildren (this : MergedMessage)
    (ids : option (list string)) (kids : option (gmap string MergedMessage))
  : MergedMessage :=
  mkMergedMessage (message_id this) (userMessageChunks this) (assistantBranches this)
    kids ids (author this) (recipient this) (content this) (meta this).

(** [child.childrenIds.forEach(...)] of the base case: each id is pushed on
    [this.childrenIds] and [this.children[childId]] is set to
    [child.children[childId]]. *)
Fixpoint promoteChildren (childChildren : option (gmap string MergedMessage))
    (childChildrenIds : list string)
    (thisChildrenIds : list string) (thisChildren : gmap string MergedMessage)
  : Result (list string * gmap string MergedMessage) :=
  match childChildrenIds with
  | [] => Ok (thisChildrenIds, thisChildren)
  | childId :: rest =>
      match childChildren with
      | None => Throw TypeError
      | Some cc =>
          promoteChildren childChildren rest (thisChildrenIds ++ [childId])
            (partial_alter (λ _, cc !! childId) childId thisChildren)
      end
  end.

(** [this.childrenIds.forEach(...)] of the recursive case; the child object
    is changed in place, so its entry holds the changed child afterwards. *)
Fixpoint deleteInChildren (del : MergedMessage → option (Result MergedMessage))
    (ids : list string) (thisChildren : option (gmap string MergedMessage))
  : option (Result (option (gmap string MergedMessage))) :=
  match ids with
  | [] => Some (Ok thisChildren)
  | childId :: rest =>
      match thisChildren ≫= (.!! childId) with
      | None => Some (Throw TypeError)
      | Some child =>
          match del child with
          | None => None
          | Some (Throw e) => Some (Throw e)
          | Some (Ok child') =>
              deleteInChildren del rest (<[childId := child']> <$> thisChildren)
          end
      end
  end.

(** [this.deleteChildMessageById(id, recurse)]: the state of [this] after the
    call.  Fuel is taken by the recursive case only. *)
Fixpoint deleteChildMessageById (fuel : nat) (id : string) (recurse : bool)
    (this : MergedMessage) : option (Result MergedMessage) :=
  match childrenIds this with
  | None => Some (Throw TypeError)
  | Some ids =>
      if bool_decide (id ∈ ids) then
        match children this ≫= (.!! id) with
        | None => Some (Throw TypeError)
        | Some child =>
            match childrenIds child with
            | None => Some (Throw TypeError)
            | Some childChildrenIds =>
                match promoteChildren (children child) childChildrenIds ids
                        (default ∅ (children this)) with
                | Throw e => Some (Throw e)
                | Ok (ids', kids') =>
                    Some (Ok (setChildren this
                                (Some (filter (λ childId, childId ≠ id) ids'))
                                (Some (delete id kids'))))
                end
            end
        end
      else if recurse then
        match fuel with
        | O => None
        | S fuel' =>
            match deleteInChildren (deleteChildMessageById fuel' id true) ids (children this) with
            | None => None
            | Some (Throw e) => Some (Throw e)
            | Some (Ok kids') => Some (Ok (setChildren this (Some ids) kids'))
            end
        end
      else Some (Ok this)
  end.

(** The height of a merged tree: the fuel that the recursive case of
    [deleteChildMessageById] needs at most. *)
Fixpoint messageHeight (m : MergedMessage) : nat :=
  S (match children m with
     | Some kids => map_fold (λ _ c acc, messageHeight c `max` acc) 0 kids
     | None => 0
     end).

(** ** Assistant-message merge *)

Definition mergeSubsequentAssistantMessages (fuel : nat) (this : MergedMessage)
  : option (Result MergedMessage) :=
  match author this with
  | None => Some (Throw TypeError)
  | Some a =>
      if bool_decide (role a = "tool") && bool_decide (name a = Some "dalle.text2im") then
        match childrenIds this with
        | None => Some (Throw TypeError)
        | Some [childId] =>
            match children this ≫= (.!! childId) with
            | None => Some (Throw TypeError)
            | Some assistantMessage =>
                match author assistantMessage with
                | None => Some (Throw TypeError)
                | Some childAuthor =>
                    if bool_decide (role childAuthor ≠ "assistant")
                    then Some (Throw DalleChildNotAssistant)
                    else
                      match content this, content assistantMessage with
                      | Some c, Some childContent =>
                          match parts c, parts childContent with
                          | Some ps, Some childParts =>
                              deleteChildMessageById fuel childId false
                                (mkMergedMessage (message_id this)
                                   (userMessageChunks this) (assistantBranches this)
                                   (children this) (childrenIds this)
                                   (author assistantMessage) (recipient this)
                                   (Some (mkContent (content_type c)
                                            (Some (ps ++ childParts)) (text c)))
                                   (meta assistantMessage))
                          | _, _ => Some (Throw TypeError)
                          end
                      | _, _ => Some (Throw TypeError)
                      end
                end
            end
        | Some _ => Some (Throw DalleChildCount)
        end
      else if bool_decide (role a = "assistant") && bool_decide (recipient this = Some "python") then
        match childrenIds this with
        | None => Some (Throw TypeError)
        | Some [_] => Some (Ok this)
        | Some _ => Some (Throw CodeBlockChildCount)
        end
      else Some (Throw UnexpectedEntry)
  end.

(** ** Find by id *)

(** The elements of the array whose property map is [props]: the values at
    the indices 0, 1, ... up to the first index without a property.  The
    class assigns [this.children] once, to an array that the constructor
    fills by [push]; for such an array these are the elements
    [this.children[0]] to [this.children[this.children.length - 1]]. *)
Fixpoint arrayElementsFrom {A} (fuel i : nat) (props : gmap string A) : list A :=
  match fuel with
  | O => []
  | S fuel' =>
      match props !! pretty i with
      | Some x => x :: arrayElementsFrom fuel' (S i) props
      | None => []
      end
  end.

Definition arrayElements {A} (props : gmap string A) : list A :=
  arrayElementsFrom (size props) 0 props.

(** The [for] loop of [findMessageById]: the first child whose search
    returns a node ends the loop. *)
Fixpoint findInChildren (find : MergedMessage → option (Result (option MergedMessage)))
    (children : list MergedMessage) : option (Result (option MergedMessage)) :=
  match children with
  | [] => Some (Ok None)
  | child :: rest =>
      match find child with
      | None => None
      | Some (Throw e) => Some (Throw e)
      | Some (Ok (Some result)) => Some (Ok (Some result))
      | Some (Ok None) => findInChildren find rest
      end
  end.

(** [this.findMessageById(id)]; [Ok None] is the [null] result.  One unit of
    fuel per level of the tree. *)
Fixpoint findFrom (fuel : nat) (id : string) (this : MergedMessage)
  : option (Result (option MergedMessage)) :=
  if bool_decide (message_id this = id) then Some (Ok (Some this))
  else
    match children this with
    | None => Some (Throw TypeError)
    | Some props =>
        match fuel with
        | O => None
        | S fuel' => findInChildren (findFrom fuel' id) (arrayElements props)
        end
    end.

Definition findMessageById (id : string) (this : MergedMessage)
  : option (Result (option MergedMessage)) :=
  findFrom (messageHeight this) id this.

(** ** Hide-flag traversal *)

Section Traversal.

(** The visibility predicate [isMessageHidden()], which the class calls on
    every child and does not define: it is supplied by the application. *)
Variable isMessageHidden : MergedMessage → bool.

(** [this.childrenIds.forEach(...)] of the traversal; [idsToRemove] is the
    collector array, returned in its state after the loop. *)
Fixpoint flagChildren
    (traverse : MergedMessage → list string → option (Result (list string)))
    (ids : list string) (thisChildren : option (gmap string MergedMessage))
    (idsToRemove : list string) : option (Result (list string)) :=
  match ids with
  | [] => Some (Ok idsToRemove)
  | childId :: rest =>
      match thisChildren ≫= (.!! childId) with
      | None => Some (Throw TypeError)
      | Some child =>
          let idsToRemove :=
            if isMessageHidden child then idsToRemove ++ [message_id child]
            else idsToRemove in
          match traverse child idsToRemove with
          | None => None
          | Some (Throw e) => Some (Throw e)
          | Some (Ok idsToRemove') => flagChildren traverse rest thisChildren idsToRemove'
          end
      end
  end.

Fixpoint flagFrom (fuel : nat) (this : MergedMessage) (idsToRemove : list string)
  : option (Result (list string)) :=
  match childrenIds this with
  | None => Some (Throw TypeError)
  | Some ids =>
      match fuel with
      | O => None
      | S fuel' => flagChildren (flagFrom fuel') ids (children this) idsToRemove
      end
  end.

(** [this.traverseAndFlagMessagesToRemove(idsToRemove)] *)
Definition traverseAndFlagMessagesToRemove (this : MergedMessage)
    (idsToRemove : list string) : option (Result (list string)) :=
  flagFrom (messageHeight this) this idsToRemove.

End Traversal.

(** * Specifications *)

(** ** The chain walk, relationally *)

Definition heightOpt (currentChild : option RawNode) : nat :=
  match currentChild with Some m => height m | None => 0 end.

(** [Follows start chain]: following single-child links from [start], the
    non-human nodes met are [chain], in order; the walk ends on an absent
    node, on a human turn (left out of the chain) or on a node without
    children. *)
Inductive Follows : option RawNode → list RawNode → Prop :=
  | follows_absent : Follows None []
  | follows_human h : isUserMessage h = true → Follows (Some h) []
  | follows_end m :
      isUserMessage m = false → raw_childrenIds m = [] → Follows (Some m) [m]
  | follows_link m k rest :
      isUserMessage m = false → raw_childrenIds m = [k] →
      Follows (raw_children m !! k) rest → Follows (Some m) (m :: rest).

(** [Visits start v]: the walk from [start] reaches the non-human node [v]
    through nodes that each have exactly one child. *)
Inductive Visits : option RawNode → RawNode → Prop :=
  | visits_here m : isUserMessage m = false → Visits (Some m) m
  | visits_link m k v :
      isUserMessage m = false → raw_childrenIds m = [k] →
      Visits (raw_children m !! k) v → Visits (Some m) v.

Definition nonLinear (v : RawNode) : Prop := 1 < length (raw_childrenIds v).

(** The ways a successful walk can end on its last collected node: no child
    at all, or one child id whose node is absent or is a human turn. *)
Definition stopsAt (l : RawNode) : Prop :=
  raw_childrenIds l = [] ∨
  ∃ k, raw_childrenIds l = [k] ∧
       (raw_children l !! k = None ∨
        ∃ h, raw_children l !! k = Some h ∧ isUserMessage h = true).

(** The two ways of ending that leave the absent node out. *)
Definition stopsAtLeafOrHuman (l : RawNode) : Prop :=
  raw_childrenIds l = [] ∨
  ∃ k h, raw_childrenIds l = [k] ∧ raw_children l !! k = Some h ∧
         isUserMessage h = true.

(** ** Chunk conversion *)

(** The node is converted without error. *)
Definition recognised (m : RawNode) : Prop := ∃ cs, messageChunks m = Ok cs.

(** The number of chunks a recognised node contributes: one for an
    [execution_output] node, one per part otherwise. *)
Definition chunkCount (m : RawNode) : nat :=
  match raw_content m with
  | Some c =>
      if bool_decide (content_type c = "execution_output") then 1
      else length (default [] (parts c))
  | None => 0
  end.

(** ** Human content extraction *)

(** One of the collections read by the extraction is absent. *)
Definition missingField (rawUserMessage : RawNode) : Prop :=
  raw_content rawUserMessage = None ∨
  (∃ c, raw_content rawUserMessage = Some c ∧ parts c = None) ∨
  raw_metadata rawUserMessage = None ∨
  (∃ md, raw_metadata rawUserMessage = Some md ∧ attachments md = None).

(** Every entry of the log reports a failure of the branch phase. *)
Definition onlyBranchFailures (log : list LogEntry) : Prop :=
  Forall (λ entry, ∃ e, entry = FailedAssistantMessages e) log.

(** ** The children of a merged message *)

(** The pairing of [childrenIds] and [children]: both are set, and the ids
    are exactly the keys that have an entry. *)
Definition childrenConsistent (this : MergedMessage) : Prop :=
  ∃ ids kids,
    childrenIds this = Some ids ∧ children this = Some kids ∧
    ∀ k, k ∈ ids ↔ is_Some (kids !! k).

(** The instance the constructor leaves behind when the branch phase throws:
    only [id] and [userMessageChunks] are set. *)
Definition withoutBranches (rawUserMessage : RawNode) : MergedMessage :=
  mkMergedMessage (raw_id rawUserMessage) (Some (loadUserMessage rawUserMessage))
    None None None None None None None.

(** The children mapping after the promotion loop: every promoted id holds
    the entry it had in the deleted child, the other keys are untouched. *)
Definition promoted (childChildren : gmap string MergedMessage)
    (childChildrenIds : list string) (thisChildren : gmap string MergedMessage)
  : gmap string MergedMessage :=
  foldl (λ kids childId, partial_alter (λ _, childChildren !! childId) childId kids)
        thisChildren childChildrenIds.

(** ** Merged trees *)

(** [Inside this n]: [n] is [this] or is reached from it through array
    elements of [children]; these are the nodes a search from [this] can
    meet. *)
Inductive Inside : MergedMessage → MergedMessage → Prop :=
  | inside_self this : Inside this this
  | inside_element this props c n :
      children this = Some props → c ∈ arrayElements props →
      Inside c n → Inside this n.

(** A tree as the constructor leaves it: [childrenIds] and [author] are not
    set, and [children] is either not set or a dense array of such trees. *)
Inductive ArrayTree : MergedMessage → Prop :=
  | array_tree_unset this :
      childrenIds this = None → author this = None → children this = None →
      ArrayTree this
  | array_tree_array this kids :
      childrenIds this = None → author this = None →
      children this = Some (arrayProps kids) →
      (∀ c, c ∈ kids → ArrayTree c) → ArrayTree this.

(** Every node of the tree has its three constructor phases done. *)
Definition fullyBuilt (n : MergedMessage) : Prop :=
  is_Some (userMessageChunks n) ∧ is_Some (assistantBranches n) ∧
  is_Some (children n).

(** The pairing of [childrenIds] and [children] throughout a tree. *)
Inductive Paired : MergedMessage → Prop :=
  | paired this ids kids :
      childrenIds this = Some ids → children this = Some kids →
      (∀ k, k ∈ ids ↔ is_Some (kids !! k)) →
      (∀ k c, kids !! k = Some c → Paired c) →
      Paired this.

(** [Below this n]: [n] is a proper descendant of [this] along the listed
    child ids. *)
Inductive Below : MergedMessage → MergedMessage → Prop :=
  | below_child this ids kids k c :
      childrenIds this = Some ids → children this = Some kids →
      k ∈ ids → kids !! k = Some c → Below this c
  | below_deeper this ids kids k c n :
      childrenIds this = Some ids → children this = Some kids →
      k ∈ ids → kids !! k = Some c → Below c n → Below this n.

(** [Lists this id]: some node of the tree lists [id] among its children. *)
Inductive Lists : MergedMessage → string → Prop :=
  | lists_here this ids id :
      childrenIds this = Some ids → id ∈ ids → Lists this id
  | lists_deeper this kids k c id :
      children this = Some kids → kids !! k = Some c →
      Lists c id → Lists this id.

(** The errors of the branch phase that can reach the log. *)
Definition branchPhaseError (e : JsError) : Prop :=
  e = BranchNotLinear ∨ e = TypeError ∨ ∃ ct, e = UnexpectedContentType ct.

(** [nextTurnOf leafMessages h]: [h] is a human turn that is a child of one
    of the noted leaves. *)
Definition nextTurnOf (leafMessages : list (option RawNode)) (h : RawNode) : Prop :=
  ∃ leaf k,
    Some leaf ∈ leafMessages ∧ k ∈ raw_childrenIds leaf ∧
    raw_children leaf !! k = Some h ∧ isUserMessage h = true.

(** The entry the second [catch] writes, if the phase threw. *)
Definition thrownEntry (thrown : option JsError) : list LogEntry :=
  match thrown with
  | Some error => [FailedAssistantMessages error]
  | None => []
  end.

(** The number of child ids of a noted leaf, none for an undefined leaf. *)
Definition leafChildCount (leaf : option RawNode) : nat :=
  match leaf with Some l => length (raw_childrenIds l) | None => 0 end.

(** What a search for [id] from [this] may answer: a node of the tree with
    that id; [null] when no node of the tree has it; a [TypeError] when the
    tree holds a node with another id whose [children] was never assigned. *)
Definition findOutcome (id : string) (this : MergedMessage)
    (r : Result (option MergedMessage)) : Prop :=
  match r with
  | Ok (Some n) => Inside this n ∧ message_id n = id
  | Ok None => ∀ n, Inside this n → message_id n ≠ id
  | Throw e =>
      e = TypeError ∧
      ∃ n, Inside this n ∧ children n = None ∧ message_id n ≠ id
  end.

(** [flaggedBelow isMessageHidden this x]: [x] is the id of a hidden proper
    descendant of [this]. *)
Definition flaggedBelow (isMessageHidden : MergedMessage → bool)
    (this : MergedMessage) (x : string) : Prop :=
  ∃ n, Below this n ∧ isMessageHidden n = true ∧ message_id n = x.

(** The content of the node is one the conversion accepts: of type [text]
    or [multimodal_text] with its [parts] present, or of type
    [execution_output]. *)
Definition convertible (m : RawNode) : Prop :=
  ∃ c, raw_content m = Some c ∧
       ((content_type c = "text" ∨ content_type c = "multimodal_text") ∧
        is_Some (parts c) ∨
        content_type c = "execution_output").

(** The error the conversion raises on a node it does not accept: a
    [TypeError] when [content] is missing, or when [parts] is missing from a
    [text] or [multimodal_text] content; the unexpected-content-type error,
    with the type, for a content of any other type. *)
Definition conversionError (m : RawNode) (e : JsError) : Prop :=
  raw_content m = None ∧ e = TypeError ∨
  ∃ c, raw_content m = Some c ∧
       ((content_type c = "text" ∨ content_type c = "multimodal_text") ∧
        parts c = None ∧ e = TypeError ∨
        content_type c ≠ "text" ∧ content_type c ≠ "multimodal_text" ∧
        content_type c ≠ "execution_output" ∧
        e = UnexpectedContentType (content_type c)).

(** * Sample conversations *)

Definition userTurn (id : string) (ps : list RawPart)
    (ids : list string) (kids : gmap string RawNode) : RawNode :=
  mkRawNode id (mkAuthor "user" None) (Some (mkContent "text" (Some ps) None)) None ids kids.

Definition assistantTurn (id : string) (ps : list RawPart)
    (ids : list string) (kids : gmap string RawNode) : RawNode :=
  mkRawNode id (mkAuthor "assistant" None) (Some (mkContent "text" (Some ps) None)) None ids kids.

(** A reply whose only child id names no node. *)
Definition danglingReply : RawNode := assistantTurn "a1" [PartString "hi"] ["x"] ∅.
Definition danglingTurn : RawNode :=
  userTurn "u1" [PartString "q"] ["a1"] {[ "a1" := danglingReply ]}.

(** A leaf reply made of two text parts. *)
Definition twoPartReply : RawNode :=
  assistantTurn "a1" [PartString "hi"; PartString "there"] [] ∅.
Definition twoPartTurn : RawNode :=
  userTurn "u1" [PartString "q"] ["a1"] {[ "a1" := twoPartReply ]}.

(** A regenerated turn: the first branch is a plain reply, the second one
    forks below a non-human node. *)
Definition plainReply : RawNode := assistantTurn "a1" [PartString "4"] [] ∅.
Definition forkedReply : RawNode :=
  assistantTurn "b1" [PartString "x"] ["b2"; "b3"]
    {[ "b2" := assistantTurn "b2" [PartString "y"] [] ∅;
       "b3" := assistantTurn "b3" [PartString "z"] [] ∅ ]}.
Definition regeneratedTurn : RawNode :=
  userTurn "u0" [PartString "What's 2+2?"] ["a1"; "b1"]
    {[ "a1" := plainReply; "b1" := forkedReply ]}.

(** A turn, its reply and the follow-up turn. *)
Definition followUp : RawNode := userTurn "u2" [PartString "more"] [] ∅.
Definition firstReply : RawNode :=
  assistantTurn "a1" [PartString "hi"] ["u2"] {[ "u2" := followUp ]}.
Definition firstTurn : RawNode :=
  userTurn "u1" [PartString "q"] ["a1"] {[ "a1" := firstReply ]}.

(** A turn with three outgoing ids: a reply followed by a further turn, an
    id without a node, and a second reply followed by a further turn. *)
Definition secondReply : RawNode :=
  assistantTurn "a3" [PartString "again"] ["u3"]
    {[ "u3" := userTurn "u3" [PartString "last"] [] ∅ ]}.
Definition gappedTurn : RawNode :=
  userTurn "u1" [PartString "q"] ["a1"; "gone"; "a3"]
    {[ "a1" := firstReply; "a3" := secondReply ]}.

(** A code-execution result without metadata, and a node of unknown type. *)
Definition executionOutput : RawNode :=
  mkRawNode "t1" (mkAuthor "tool" (Some "python"))
    (Some (mkContent "execution_output" None (Some "42"))) None [] ∅.
Definition systemError : RawNode :=
  mkRawNode "t2" (mkAuthor "tool" None)
    (Some (mkContent "system_error" None (Some "boom"))) None [] ∅.

(** A user turn with an attachment and no [content]. *)
Definition attachmentOnlyTurn : RawNode :=
  mkRawNode "u9" (mkAuthor "user" None) None
    (Some (mkMetadata (Some [mkAttachment "file-1" "image/png"]) None)) [] ∅.

(** A turn whose first outgoing id names no node and whose second branch
    forks below a non-human node. *)
Definition gapThenFork : RawNode :=
  userTurn "u1" [PartString "q"] ["gone"; "b1"] {[ "b1" := forkedReply ]}.

(** * Sample merged trees *)

Definition leafMessage (id : string) : MergedMessage :=
  mkMergedMessage id None None (Some ∅) (Some []) None None None None.

(** [P] has the children [W] and [X]; [X] has the children [Y] and [Z], and
    [Y] has a child of its own. *)
Definition messageY : MergedMessage :=
  mkMergedMessage "Y" None None (Some {[ "G" := leafMessage "G" ]}) (Some ["G"])
    None None None None.
Definition messageX : MergedMessage :=
  mkMergedMessage "X" None None
    (Some {[ "Y" := messageY; "Z" := leafMessage "Z" ]}) (Some ["Y"; "Z"])
    None None None None.
Definition messageP : MergedMessage :=
  mkMergedMessage "P" None None
    (Some {[ "W" := leafMessage "W"; "X" := messageX ]}) (Some ["W"; "X"])
    None None None None.

(** An image-generation tool node followed by the assistant's comment. *)
Definition assistantComment : MergedMessage :=
  mkMergedMessage "A" None None (Some ∅) (Some [])
    (Some (mkAuthor "assistant" None)) None
    (Some (mkContent "text" (Some [PartString "Here is your image."]) None))
    (Some (mkMetadata None None)).
Definition dalleMessage (ids : list string) : MergedMessage :=
  mkMergedMessage "D" None None (Some {[ "A" := assistantComment ]}) (Some ids)
    (Some (mkAuthor "tool" (Some "dalle.text2im"))) None
    (Some (mkContent "multimodal_text" (Some [PartObject "file-service://file-img"]) None))
    None.

(** An assistant node addressed to the code interpreter, and a system node. *)
Definition pythonMessage (ids : list string) : MergedMessage :=
  mkMergedMessage "C" None None (Some ∅) (Some ids)
    (Some (mkAuthor "assistant" None)) (Some "python") None None.
Definition systemMessage : MergedMessage :=
  mkMergedMessage "S" None None (Some ∅) (Some [])
    (Some (mkAuthor "system" None)) None None None.

(** A node that lists a child id without entry, an image-generation node
    whose child is authored by the user, and a visibility predicate that
    hides the node [G]. *)
Definition danglingMessage : MergedMessage :=
  mkMergedMessage "D0" None None (Some ∅) (Some ["K"]) None None None None.

Definition userAuthoredChild : MergedMessage :=
  mkMergedMessage "A" None None (Some ∅) (Some [])
    (Some (mkAuthor "user" None)) None None None.

Definition dalleWithUserChild : MergedMessage :=
  mkMergedMessage "D" None None (Some {[ "A" := userAuthoredChild ]}) (Some ["A"])
    (Some (mkAuthor "tool" (Some "dalle.text2im"))) None None None.

Definition hidesG (m : MergedMessage) : bool := bool_decide (message_id m = "G").

(** * Properties *)

(** ** The raw tree *)

Lemma height_child (m : RawNode) (k : string) (c : RawNode) :
  raw_children m !! k = Some c → height c < height m.
Proof.
  destruct m as [i a ct md ids kids]; simpl. intros Hk.
  enough (height c ≤ map_fold (λ _ c acc, height c `max` acc) 0 kids) by lia.
  revert Hk.
  apply (map_fold_weak_ind (λ r (kids : gmap string RawNode), kids !! k = Some c → height c ≤ r)).
  - by rewrite lookup_empty.
  - intros j x kids' r _ IH. rewrite lookup_insert. case_decide.
    + intros [= ->]. lia.
    + intros Hc. specialize (IH Hc). lia.
Qed.

Lemma walk_sound (fuel : nat) (currentChild : option RawNode)
    (rawMessages : list RawNode) (r : Result (list RawNode)) :
  walk fuel currentChild rawMessages = Some r →
  match r with
  | Ok chain => ∃ rest, chain = rawMessages ++ rest ∧ Follows currentChild rest
  | Throw e => e = BranchNotLinear ∧ ∃ v, Visits currentChild v ∧ nonLinear v
  end.
Proof.
  revert currentChild rawMessages.
  induction fuel as [|fuel IH]; intros [cur|] acc; simpl;
    try (intros [= <-]; exists []; rewrite app_nil_r; split; [done|constructor]).
  all: destruct (isUserMessage cur) eqn:Hu;
    [intros [= <-]; exists []; rewrite app_nil_r; split; [done|by constructor]|].
  all: destruct (raw_childrenIds cur) as [|k [|k' ids]] eqn:Hids.
  all: try (intros [= <-]; exists [cur]; split; [done|by constructor]).
  all: try (intros [= <-]; split; [done|]; exists cur; split;
            [by constructor | unfold nonLinear; rewrite Hids; simpl; lia]).
  - done.
  - intros Hw. specialize (IH _ _ Hw). destruct r as [chain|e].
    + destruct IH as (rest & -> & Hf). exists (cur :: rest).
      split; [by rewrite <-app_assoc | by econstructor].
    + destruct IH as (-> & v & Hv & Hn). split; [done|].
      exists v. split; [by econstructor | done].
Qed.

Lemma walk_enough (fuel : nat) (currentChild : option RawNode)
    (rawMessages : list RawNode) :
  heightOpt currentChild ≤ fuel → is_Some (walk fuel currentChild rawMessages).
Proof.
  revert currentChild rawMessages.
  induction fuel as [|fuel IH]; intros [cur|] acc Hh; simpl in *; try by eexists.
  - destruct cur; simpl in Hh; lia.
  - destruct (isUserMessage cur); [by eexists|].
    destruct (raw_childrenIds cur) as [|k [|k' ids]]; try by eexists.
    apply IH. destruct (raw_children cur !! k) as [c|] eqn:Hc; simpl; [|lia].
    apply height_child in Hc. lia.
Qed.

Lemma Follows_functional (start : option RawNode) (c1 c2 : list RawNode) :
  Follows start c1 → Follows start c2 → c1 = c2.
Proof.
  intros H1. revert c2.
  induction H1 as [|h Hh|m Hm Hids|m k rest Hm Hids Hf IH]; intros c2 H2;
    inversion H2; simplify_eq; try done; try congruence.
  f_equal. apply IH. congruence.
Qed.

Lemma Follows_linear (start : option RawNode) (chain : list RawNode) (v : RawNode) :
  Follows start chain → Visits start v → ¬ nonLinear v.
Proof.
  unfold nonLinear. intros Hf Hv. revert chain Hf.
  induction Hv as [m Hm|m k v Hm Hids Hv IH]; intros chain Hf;
    inversion Hf; simplify_eq; try congruence;
    try (match goal with H : raw_childrenIds _ = _ |- _ => rewrite H end; simpl; lia).
  eapply IH.
  match goal with H : Follows (raw_children m !! ?k') _ |- _ =>
    replace k with k' by congruence; exact H end.
Qed.

Lemma Follows_visits (start : option RawNode) (chain : list RawNode) (v : RawNode) :
  Follows start chain → (v ∈ chain ↔ Visits start v).
Proof.
  intros Hf. induction Hf as [|h Hh|m Hm Hids|m k rest Hm Hids Hf IH].
  - split; [by intros ?%elem_of_nil | inversion 1].
  - split; [by intros ?%elem_of_nil | inversion 1; congruence].
  - rewrite list_elem_of_singleton. split.
    + intros ->. by constructor.
    + inversion 1; simplify_eq; [done | congruence].
  - rewrite elem_of_cons, IH. split.
    + intros [->|Hv]; [by constructor | by econstructor].
    + inversion 1; simplify_eq; [by left|]. right. congruence.
Qed.

Lemma validateAndExtractLinkedList_total (rawUserMessage : RawNode) (childId : string) :
  is_Some (validateAndExtractLinkedList rawUserMessage childId).
Proof.
  apply walk_enough.
  destruct (raw_children rawUserMessage !! childId) as [c|] eqn:Hc; simpl; [|lia].
  apply height_child in Hc. lia.
Qed.

Lemma validateAndExtractLinkedList_Ok (rawUserMessage : RawNode) (childId : string)
    (chain : list RawNode) :
  validateAndExtractLinkedList rawUserMessage childId = Some (Ok chain) ↔
  Follows (raw_children rawUserMessage !! childId) chain.
Proof.
  split.
  - intros (rest & -> & Hf)%walk_sound. done.
  - intros Hf.
    destruct (validateAndExtractLinkedList_total rawUserMessage childId) as [[c|e] Hr];
      rewrite Hr; pose proof (walk_sound _ _ _ _ Hr) as Hs; simpl in Hs.
    + destruct Hs as (rest & -> & Hf'). simpl.
      by rewrite (Follows_functional _ _ _ Hf Hf').
    + destruct Hs as (_ & v & Hv & Hn). by destruct (Follows_linear _ _ _ Hf Hv).
Qed.

Lemma Follows_nonhuman (start : option RawNode) (chain : list RawNode) :
  Follows start chain → Forall (λ m, isUserMessage m = false) chain.
Proof. induction 1; by repeat constructor. Qed.

Lemma Follows_stop (start : option RawNode) (chain : list RawNode) :
  Follows start chain →
  match last chain with
  | Some l => stopsAt l
  | None => start = None ∨ ∃ h, start = Some h ∧ isUserMessage h = true
  end.
Proof.
  induction 1 as [|h Hh|m Hm Hids|m k rest Hm Hids Hf IH]; simpl.
  - by left.
  - right. by exists h.
  - by left.
  - destruct rest as [|m' rest]; simpl in *.
    + right. exists k. split; [done|]. destruct IH as [->|(h & -> & Hh)]; [by left|].
      right. by exists h.
    + destruct (last (m' :: rest)) as [l|] eqn:Hl; [done|].
      by apply last_None in Hl.
Qed.

(** C5, as stated: a successful walk would always end on a node without
    children or in front of the next human turn.  It fails on a reply whose
    single child id has no node in its children mapping. *)
Lemma validateAndExtractLinkedList_stop_counterexample :
  ¬ (∀ (rawUserMessage : RawNode) (childId : string) (chain : list RawNode) (l : RawNode),
       validateAndExtractLinkedList rawUserMessage childId = Some (Ok chain) →
       last chain = Some l → stopsAtLeafOrHuman l).
Proof.
  intros H.
  destruct (H danglingTurn "a1" [danglingReply] danglingReply) as [Hnil|(k & h & _ & Hk & _)].
  - by vm_compute.
  - done.
  - discriminate Hnil.
  - simpl in Hk. by rewrite lookup_empty in Hk.
Qed.

(** C5, amended: the walk always returns; it succeeds with [chain] exactly
    when [chain] is the sequence of non-human nodes met by following
    single-child links from the outgoing child, in visit order and without
    the human turn that ends it; the last collected node then has no child,
    or one child id whose node is absent or is the next human turn; and the
    walk raises the linearity error exactly when a visited non-human node has
    more than one child. *)
Theorem validateAndExtractLinkedList_spec (rawUserMessage : RawNode) (childId : string) :
  let start := raw_children rawUserMessage !! childId in
  is_Some (validateAndExtractLinkedList rawUserMessage childId) ∧
  (∀ chain,
     validateAndExtractLinkedList rawUserMessage childId = Some (Ok chain) ↔
     Follows start chain) ∧
  (∀ chain, Follows start chain →
     (∀ v, v ∈ chain ↔ Visits start v) ∧
     Forall (λ m, isUserMessage m = false) chain ∧
     match last chain with
     | Some l => stopsAt l
     | None => start = None ∨ ∃ h, start = Some h ∧ isUserMessage h = true
     end) ∧
  (∀ e,
     validateAndExtractLinkedList rawUserMessage childId = Some (Throw e) ↔
     e = BranchNotLinear ∧ ∃ v, Visits start v ∧ nonLinear v).
Proof.
  intros start. split; [apply validateAndExtractLinkedList_total|].
  split; [apply validateAndExtractLinkedList_Ok|].
  split.
  { intros chain Hf. split; [intros v; by apply Follows_visits|].
    split; [by eapply Follows_nonhuman | by apply Follows_stop]. }
  intros e. split.
  - intros Hr. apply (walk_sound _ _ _ _ Hr).
  - intros (-> & v & Hv & Hn).
    destruct (validateAndExtractLinkedList_total rawUserMessage childId) as [[c|e] Hr];
      rewrite Hr; pose proof (walk_sound _ _ _ _ Hr) as Hs; simpl in Hs.
    + destruct Hs as (rest & -> & Hf). by destruct (Follows_linear _ _ _ Hf Hv).
    + by destruct Hs as [-> _].
Qed.

(** ** Chunk conversion *)

Lemma pushChunks_acc (rawMessages : list RawNode) (chunks : list ContentPart) :
  pushChunks rawMessages chunks =
  bindR (pushChunks rawMessages []) (λ cs, Ok (chunks ++ cs)).
Proof.
  revert chunks. induction rawMessages as [|m l IH]; intros chunks; simpl.
  - by rewrite app_nil_r.
  - destruct (messageChunks m) as [cs|e]; simpl; [|done].
    rewrite (IH (chunks ++ cs)), (IH cs).
    destruct (pushChunks l []) as [cs'|e]; simpl; [|done]. by rewrite app_assoc.
Qed.

Lemma buildSingleAssistantMessage_cons (m : RawNode) (l : list RawNode) :
  buildSingleAssistantMessage (m :: l) =
  bindR (messageChunks m) (λ cs,
    bindR (buildSingleAssistantMessage l) (λ cs', Ok (cs ++ cs'))).
Proof.
  unfold buildSingleAssistantMessage; simpl.
  destruct (messageChunks m) as [cs|e]; simpl; [|done]. apply pushChunks_acc.
Qed.

Lemma buildSingleAssistantMessage_app (l1 l2 : list RawNode) :
  buildSingleAssistantMessage (l1 ++ l2) =
  bindR (buildSingleAssistantMessage l1) (λ cs,
    bindR (buildSingleAssistantMessage l2) (λ cs', Ok (cs ++ cs'))).
Proof.
  induction l1 as [|m l1 IH]; simpl.
  - change (buildSingleAssistantMessage []) with (@Ok (list ContentPart) []); simpl.
    by destruct (buildSingleAssistantMessage l2).
  - rewrite !buildSingleAssistantMessage_cons, IH.
    destruct (messageChunks m) as [cs|e]; simpl; [|done].
    destruct (buildSingleAssistantMessage l1) as [cs1|e]; simpl; [|done].
    destruct (buildSingleAssistantMessage l2) as [cs2|e]; simpl; [|done].
    by rewrite app_assoc.
Qed.

Lemma buildSingleAssistantMessage_concat (chain : list RawNode) (chunks : list ContentPart) :
  buildSingleAssistantMessage chain = Ok chunks ↔
  ∃ css, Forall2 (λ m cs, messageChunks m = Ok cs) chain css ∧ chunks = concat css.
Proof.
  revert chunks. induction chain as [|m l IH]; intros chunks.
  - split.
    + intros [= <-]. exists []. by split; [constructor|].
    + intros (css & ->%Forall2_nil_inv_l & ->). done.
  - rewrite buildSingleAssistantMessage_cons. split.
    + destruct (messageChunks m) as [cs|e] eqn:Hm; simpl; [|done].
      destruct (buildSingleAssistantMessage l) as [cs'|e] eqn:Hl; simpl; [|done].
      intros [= <-]. destruct (proj1 (IH cs') eq_refl) as (css & Hcss & ->).
      exists (cs :: css). by split; [constructor|].
    + intros (css & (cs & css' & Hm & Hl & ->)%Forall2_cons_inv_l & ->).
      rewrite Hm; simpl.
      rewrite (proj2 (IH (concat css'))) by (by exists css'). done.
Qed.

(** C7: a node with content type [execution_output] contributes exactly one
    [code] chunk pairing [metadata.aggregate_result.code] (the empty string
    when absent) with [content.text]; a node whose content type is none of
    [text], [multimodal_text] and [execution_output] makes the conversion of
    its branch fail with the unexpected-content-type error. *)
Theorem buildSingleAssistantMessage_dispatch
    (before after : list RawNode) (rawMessage : RawNode) (c : Content)
    (chunks : list ContentPart) :
  raw_content rawMessage = Some c →
  buildSingleAssistantMessage before = Ok chunks →
  let originatingCode :=
    match raw_metadata rawMessage with
    | Some md => match aggregate_result md with
                 | Some ar => match code ar with Some s => s | None => "" end
                 | None => ""
                 end
    | None => ""
    end in
  (content_type c = "execution_output" →
     messageChunks rawMessage =
       Ok [mkContentPart "code" (CodeOutput originatingCode (text c)) None] ∧
     buildSingleAssistantMessage (before ++ [rawMessage]) =
       Ok (chunks ++ [mkContentPart "code" (CodeOutput originatingCode (text c)) None])) ∧
  (content_type c ≠ "text" → content_type c ≠ "multimodal_text" →
   content_type c ≠ "execution_output" →
     messageChunks rawMessage = Throw (UnexpectedContentType (content_type c)) ∧
     buildSingleAssistantMessage (before ++ rawMessage :: after) =
       Throw (UnexpectedContentType (content_type c))).
Proof.
  intros Hc Hb code0.
  assert (Hcode : default "" ((raw_metadata rawMessage ≫= aggregate_result) ≫= code) = code0).
  { subst code0. destruct (raw_metadata rawMessage) as [[? [[[?|]]|]]|]; done. }
  split.
  - intros Ht.
    assert (Hm : messageChunks rawMessage =
                 Ok [mkContentPart "code" (CodeOutput code0 (text c)) None]).
    { unfold messageChunks. rewrite Hc, Ht, Hcode. done. }
    split; [done|].
    rewrite buildSingleAssistantMessage_app, Hb; simpl.
    rewrite buildSingleAssistantMessage_cons, Hm; simpl. done.
  - intros H1 H2 H3.
    assert (Hm : messageChunks rawMessage = Throw (UnexpectedContentType (content_type c))).
    { unfold messageChunks. rewrite Hc.
      rewrite !bool_decide_eq_false_2 by done. done. }
    split; [done|].
    rewrite buildSingleAssistantMessage_app, Hb; simpl.
    rewrite buildSingleAssistantMessage_cons, Hm; simpl. done.
Qed.

(** ** The constructor: fuel and unfolding *)

Lemma Follows_height (start : option RawNode) (chain : list RawNode) (m : RawNode) :
  Follows start chain → m ∈ chain → height m ≤ heightOpt start.
Proof.
  intros Hf. revert m.
  induction Hf as [|h Hh|m' Hm Hids|m' k rest Hm Hids Hf IH]; intros m; simpl.
  - by intros ?%elem_of_nil.
  - by intros ?%elem_of_nil.
  - by intros ->%list_elem_of_singleton.
  - intros [->|Hin]%elem_of_cons; [done|].
    specialize (IH _ Hin). destruct (raw_children m' !! k) as [c|] eqn:Hc.
    + apply height_child in Hc. simpl in IH. lia.
    + inversion Hf; simplify_eq. by apply elem_of_nil in Hin.
Qed.

Lemma exploreBranch_total (rawUserMessage : RawNode) (childId : string) :
  is_Some (exploreBranch rawUserMessage childId).
Proof.
  unfold exploreBranch.
  destruct (validateAndExtractLinkedList_total rawUserMessage childId) as [[c|e] ->];
    by eexists.
Qed.

Lemma exploreBranch_leaf_height (rawUserMessage : RawNode) (childId : string)
    (leaf : RawNode) (chunks : list ContentPart) :
  exploreBranch rawUserMessage childId = Some (Ok (Some leaf, chunks)) →
  height leaf < height rawUserMessage.
Proof.
  unfold exploreBranch.
  destruct (validateAndExtractLinkedList rawUserMessage childId) as [[chain|e]|] eqn:Hv;
    [|done..].
  destruct (buildSingleAssistantMessage chain) as [cs|e]; simpl; [|done].
  intros [= Hl <-]. apply validateAndExtractLinkedList_Ok in Hv.
  assert (Hin : leaf ∈ chain).
  { apply last_Some in Hl as [l' ->]. set_solver. }
  pose proof (Follows_height _ _ _ Hv Hin) as Hh.
  destruct (raw_children rawUserMessage !! childId) as [c|] eqn:Hc; simpl in Hh.
  - apply height_child in Hc. lia.
  - destruct leaf; simpl in Hh; lia.
Qed.

Lemma exploreBranches_total (rawUserMessage : RawNode) (ids : list string) :
  is_Some (exploreBranches rawUserMessage ids).
Proof.
  induction ids as [|cid ids [r IH]]; simpl; [by eexists|].
  destruct (exploreBranch_total rawUserMessage cid) as [[b|e] ->]; [|by eexists].
  rewrite IH. destruct r; by eexists.
Qed.

Lemma exploreBranches_Ok (rawUserMessage : RawNode) (ids : list string)
    (branches : list (option RawNode * list ContentPart)) :
  exploreBranches rawUserMessage ids = Some (Ok branches) ↔
  Forall2 (λ cid b, exploreBranch rawUserMessage cid = Some (Ok b)) ids branches.
Proof.
  revert branches. induction ids as [|cid ids IH]; intros branches; simpl.
  - split; [intros [= <-]; constructor | by intros ->%Forall2_nil_inv_l].
  - split.
    + destruct (exploreBranch rawUserMessage cid) as [[b|e]|] eqn:Hb; [|done..].
      destruct (exploreBranches rawUserMessage ids) as [[bs|e]|] eqn:Hbs; [|done..].
      intros [= <-]. constructor; [done|]. by apply IH.
    + intros (b & bs & Hb & Hbs & ->)%Forall2_cons_inv_l.
      rewrite Hb. apply IH in Hbs. by rewrite Hbs.
Qed.

Lemma exploreBranches_Throw (rawUserMessage : RawNode) (ids : list string) (e : JsError) :
  exploreBranches rawUserMessage ids = Some (Throw e) ↔
  ∃ before cid after,
    ids = before ++ cid :: after ∧
    Forall (λ c, ∃ b, exploreBranch rawUserMessage c = Some (Ok b)) before ∧
    exploreBranch rawUserMessage cid = Some (Throw e).
Proof.
  induction ids as [|cid ids IH]; simpl.
  - split; [done|]. intros (before & c & after & Hnil & _). by destruct before.
  - split.
    + destruct (exploreBranch rawUserMessage cid) as [[b|e']|] eqn:Hb; [| |done].
      * destruct (exploreBranches rawUserMessage ids) as [[bs|e']|] eqn:Hbs; [done| |done].
        intros [= ->]. destruct (proj1 IH eq_refl) as (before & c & after & -> & Hall & Hc).
        exists (cid :: before), c, after. split; [done|]. split; [|done].
        constructor; [by exists b | done].
      * intros [= ->]. exists [], cid, ids. by repeat split.
    + intros (before & c & after & Hids & Hall & Hc).
      destruct before as [|c0 before]; simplify_eq/=.
      * by rewrite Hc.
      * apply Forall_cons in Hall as [[b Hb] Hall]. rewrite Hb.
        rewrite (proj2 IH) by (by exists before, c, after). done.
Qed.

Lemma exploreBranches_leaf_height (rawUserMessage : RawNode) (ids : list string)
    (branches : list (option RawNode * list ContentPart)) (leaf : RawNode) :
  exploreBranches rawUserMessage ids = Some (Ok branches) →
  Some leaf ∈ branches.*1 → height leaf < height rawUserMessage.
Proof.
  intros Hbs%exploreBranches_Ok ([l chunks] & Hl & Hin)%list_elem_of_fmap.
  simpl in Hl; subst l.
  apply list_elem_of_lookup in Hin as [i Hi].
  destruct (Forall2_lookup_r _ _ _ _ _ Hbs Hi) as (cid & _ & Hb).
  by eapply exploreBranch_leaf_height.
Qed.

Lemma pushLeafChildren_ext (new1 new2 : RawNode → option (MergedMessage * list LogEntry))
    (leafChildren : list (option RawNode))
    (kids : list MergedMessage) (log : list LogEntry) :
  (∀ lc, Some lc ∈ leafChildren → new1 lc = new2 lc) →
  pushLeafChildren new1 leafChildren kids log = pushLeafChildren new2 leafChildren kids log.
Proof.
  revert kids log. induction leafChildren as [|[lc|] l IH]; intros kids log Hext; simpl;
    [done| |done].
  destruct (isUserMessage lc); [|done].
  rewrite <-(Hext lc) by set_solver. destruct (new1 lc) as [[child entries]|]; [|done].
  apply IH. intros lc' Hin. apply Hext. set_solver.
Qed.

Lemma aggregateLeaves_ext (new1 new2 : RawNode → option (MergedMessage * list LogEntry))
    (leafMessages : list (option RawNode))
    (kids : list MergedMessage) (log : list LogEntry) :
  (∀ leaf k lc, Some leaf ∈ leafMessages → raw_children leaf !! k = Some lc →
                new1 lc = new2 lc) →
  aggregateLeaves new1 leafMessages kids log = aggregateLeaves new2 leafMessages kids log.
Proof.
  revert kids log. induction leafMessages as [|[leaf|] l IH]; intros kids log Hext; simpl;
    [done| |done].
  rewrite (pushLeafChildren_ext new1 new2).
  - destruct (pushLeafChildren new2 _ kids log) as [[[kids' log'] [e|]]|]; [done| |done].
    apply IH. intros leaf' k lc Hin. apply Hext. set_solver.
  - intros lc (k & Hk & _)%list_elem_of_fmap. eapply (Hext leaf k); [set_solver|done].
Qed.

Lemma pushLeafChildren_total (new : RawNode → option (MergedMessage * list LogEntry))
    (leafChildren : list (option RawNode))
    (kids : list MergedMessage) (log : list LogEntry) :
  (∀ lc, Some lc ∈ leafChildren → is_Some (new lc)) →
  is_Some (pushLeafChildren new leafChildren kids log).
Proof.
  revert kids log. induction leafChildren as [|[lc|] l IH]; intros kids log Hnew; simpl;
    [by eexists| |by eexists].
  destruct (isUserMessage lc); [|by eexists].
  destruct (Hnew lc) as [[child entries] ->]; [set_solver|].
  apply IH. intros lc' Hin. apply Hnew. set_solver.
Qed.

Lemma aggregateLeaves_total (new : RawNode → option (MergedMessage * list LogEntry))
    (leafMessages : list (option RawNode))
    (kids : list MergedMessage) (log : list LogEntry) :
  (∀ leaf k lc, Some leaf ∈ leafMessages → raw_children leaf !! k = Some lc →
                is_Some (new lc)) →
  is_Some (aggregateLeaves new leafMessages kids log).
Proof.
  revert kids log. induction leafMessages as [|[leaf|] l IH]; intros kids log Hnew; simpl;
    [by eexists| |by eexists].
  destruct (pushLeafChildren_total new
              ((λ childId, raw_children leaf !! childId) <$> raw_childrenIds leaf) kids log)
    as [[[kids' log'] [e|]] ->]; [|by eexists|].
  - intros lc (k & Hk & _)%list_elem_of_fmap. eapply (Hnew leaf k); [set_solver|done].
  - apply IH. intros leaf' k lc Hin. apply Hnew. set_solver.
Qed.

Lemma construct_total (fuel : nat) (rawUserMessage : RawNode) :
  height rawUserMessage ≤ fuel → is_Some (construct fuel rawUserMessage).
Proof.
  revert rawUserMessage. induction fuel as [|fuel IH]; intros raw Hh.
  - destruct raw; simpl in Hh; lia.
  - simpl.
    destruct (exploreBranches_total raw (raw_childrenIds raw)) as [[branches|e] Hbs];
      rewrite Hbs; [|by eexists].
    destruct (aggregateLeaves_total (construct fuel) branches.*1 [] [])
      as [[[kids log] thrown] ->]; [|by eexists].
    intros leaf k lc Hleaf Hlc. apply IH.
    apply (exploreBranches_leaf_height _ _ _ _ Hbs) in Hleaf.
    apply height_child in Hlc. lia.
Qed.

Lemma construct_fuel (fuel1 fuel2 : nat) (rawUserMessage : RawNode) :
  height rawUserMessage ≤ fuel1 → height rawUserMessage ≤ fuel2 →
  construct fuel1 rawUserMessage = construct fuel2 rawUserMessage.
Proof.
  revert fuel2 rawUserMessage.
  induction fuel1 as [|fuel1 IH]; intros [|fuel2] raw H1 H2;
    try (destruct raw; simpl in *; lia).
  simpl.
  destruct (exploreBranches raw (raw_childrenIds raw)) as [[branches|e]|] eqn:Hbs; [|done..].
  rewrite (aggregateLeaves_ext (construct fuel1) (construct fuel2)); [done|].
  intros leaf k lc Hleaf Hlc.
  apply (exploreBranches_leaf_height _ _ _ _ Hbs) in Hleaf.
  apply height_child in Hlc. apply IH; lia.
Qed.

(** The constructor in the shape of the source: what [new MergedMessage]
    does, in terms of the nested [new MergedMessage] calls. *)
Lemma newMergedMessage_unfold (rawUserMessage : RawNode) :
  newMergedMessage rawUserMessage =
  match exploreBranches rawUserMessage (raw_childrenIds rawUserMessage) with
  | None => None
  | Some (Throw error) =>
      Some (mkMergedMessage (raw_id rawUserMessage)
              (Some (loadUserMessage rawUserMessage)) None None None None None None None,
            [FailedAssistantMessages error])
  | Some (Ok branches) =>
      match aggregateLeaves newMergedMessage branches.*1 [] [] with
      | None => None
      | Some (kids, log, thrown) =>
          Some (mkMergedMessage (raw_id rawUserMessage)
                  (Some (loadUserMessage rawUserMessage)) (Some branches.*2)
                  (Some (arrayProps kids)) None None None None None,
                log ++ match thrown with
                       | Some error => [FailedAssistantMessages error]
                       | None => []
                       end)
      end
  end.
Proof.
  unfold newMergedMessage at 1.
  destruct (height rawUserMessage) as [|fuel] eqn:Hh; [destruct rawUserMessage; done|].
  simpl.
  destruct (exploreBranches _ _) as [[branches|e]|] eqn:Hbs; [|done..].
  rewrite (aggregateLeaves_ext (construct fuel) newMergedMessage); [done|].
  intros leaf k lc Hleaf Hlc.
  apply (exploreBranches_leaf_height _ _ _ _ Hbs) in Hleaf.
  apply height_child in Hlc. apply construct_fuel; lia.
Qed.

Lemma newMergedMessage_total (rawUserMessage : RawNode) :
  is_Some (newMergedMessage rawUserMessage).
Proof. by apply construct_total. Qed.

Lemma newMergedMessage_userMessageChunks (rawUserMessage : RawNode) :
  ∃ m log,
    newMergedMessage rawUserMessage = Some (m, log) ∧
    userMessageChunks m = Some (loadUserMessage rawUserMessage).
Proof.
  destruct (newMergedMessage_total rawUserMessage) as [[m log] Hm].
  exists m, log. split; [done|].
  rewrite newMergedMessage_unfold in Hm.
  destruct (exploreBranches _ _) as [[branches|e]|]; [| |done].
  - destruct (aggregateLeaves _ _ _ _) as [[[kids log1] thrown]|]; [|done].
    by injection Hm as <- <-.
  - by injection Hm as <- <-.
Qed.

(** ** Human content extraction *)

Lemma omap_asString_filter (rawParts : list RawPart) :
  PartString <$> omap asString rawParts = filter (λ p, is_Some (asString p)) rawParts.
Proof.
  induction rawParts as [|[s|p] l IH]; csimpl; [done| |].
  - rewrite filter_cons_True by (by eexists). by rewrite <-IH.
  - rewrite filter_cons_False; [done|]. by intros [? ?].
Qed.

(** C6: the constructor sets [userMessageChunks] to the attachment chunks,
    in the order of [metadata.attachments], followed by the text chunks, in
    the order of the string entries of [content.parts]: chunk [i] comes from
    attachment [i], and chunk [length attachments + j] from the [j]-th string
    entry. *)
Theorem loadUserMessage_attachments_first (rawUserMessage : RawNode) :
  let rawAttachments := default [] (raw_metadata rawUserMessage ≫= attachments) in
  let rawParts := default [] (raw_content rawUserMessage ≫= parts) in
  let chunks := loadUserMessage rawUserMessage in
  (∃ m log,
     newMergedMessage rawUserMessage = Some (m, log) ∧
     userMessageChunks m = Some chunks) ∧
  ∃ strings : list string,
    PartString <$> strings = filter (λ p, is_Some (asString p)) rawParts ∧
    length chunks = length rawAttachments + length strings ∧
    (∀ i a, rawAttachments !! i = Some a →
            chunks !! i = Some (attachmentFieldChunk a)) ∧
    (∀ j s, strings !! j = Some s →
            chunks !! (length rawAttachments + j) = Some (contentFieldChunk s)).
Proof.
  intros rawAttachments rawParts chunks.
  split; [apply newMergedMessage_userMessageChunks|].
  exists (omap asString rawParts).
  split; [apply omap_asString_filter|].
  subst chunks. unfold loadUserMessage. fold rawAttachments rawParts.
  split; [by rewrite length_app, !length_fmap|]. split.
  - intros i a Ha. rewrite lookup_app_l.
    + by rewrite list_lookup_fmap, Ha.
    + rewrite length_fmap. by eapply lookup_lt_Some.
  - intros j s Hs.
    rewrite <-(length_fmap attachmentFieldChunk rawAttachments), lookup_app_r by lia.
    replace (_ + j - _) with j by lia. by rewrite list_lookup_fmap, Hs.
Qed.

(** ** Failure of a branch *)

(** C1, as stated: with one branch raising a structural error, a sibling
    branch would still be found in [assistantBranches].  It fails on a
    regenerated turn whose second branch forks: nothing is assigned. *)
Lemma newMergedMessage_sibling_counterexample :
  ¬ (∀ (rawUserMessage : RawNode) (i j : nat) (ci cj : string) (e : JsError)
       (leaf : option RawNode) (chunks : list ContentPart),
       i ≠ j →
       raw_childrenIds rawUserMessage !! i = Some ci →
       raw_childrenIds rawUserMessage !! j = Some cj →
       exploreBranch rawUserMessage ci = Some (Throw e) →
       isStructuralAssertion e = true →
       exploreBranch rawUserMessage cj = Some (Ok (leaf, chunks)) →
       ∃ m log bs,
         newMergedMessage rawUserMessage = Some (m, log) ∧
         assistantBranches m = Some bs ∧ bs !! j = Some chunks).
Proof.
  intros H.
  destruct (H regeneratedTurn 1 0 "b1" "a1" BranchNotLinear (Some plainReply)
              [mkContentPart "text" (Str "4") None])
    as (m & log & bs & Hnew & Hbs & _); try done.
  vm_compute in Hnew. by simplify_eq.
Qed.

(** C1, amended: a structural error raised while one branch of a human turn
    is discovered or converted ends the branch phase of that turn as a whole.
    The error reported is that of the first failing branch; the constructor
    still returns, with the identifier and [userMessageChunks] set and with
    [assistantBranches] and [children] unassigned for every branch of the
    turn, the siblings of the failing one included. *)
Theorem newMergedMessage_branch_failure
    (rawUserMessage : RawNode) (i : nat) (ci : string) (e : JsError) :
  raw_childrenIds rawUserMessage !! i = Some ci →
  exploreBranch rawUserMessage ci = Some (Throw e) →
  ∃ (k : nat) (ck : string) (e' : JsError),
    k ≤ i ∧
    raw_childrenIds rawUserMessage !! k = Some ck ∧
    exploreBranch rawUserMessage ck = Some (Throw e') ∧
    (∀ k' c', k' < k → raw_childrenIds rawUserMessage !! k' = Some c' →
              ∃ b, exploreBranch rawUserMessage c' = Some (Ok b)) ∧
    newMergedMessage rawUserMessage =
      Some (withoutBranches rawUserMessage, [FailedAssistantMessages e']).
Proof.
  intros Hi He. rewrite newMergedMessage_unfold.
  destruct (exploreBranches_total rawUserMessage (raw_childrenIds rawUserMessage))
    as [[branches|e'] Hbs]; rewrite Hbs.
  - apply exploreBranches_Ok in Hbs.
    destruct (Forall2_lookup_l _ _ _ _ _ Hbs Hi) as (b & _ & Hb). congruence.
  - apply exploreBranches_Throw in Hbs as (before & ck & after & Hids & Hall & Hck).
    exists (length before), ck, e'.
    assert (Hbefore : ∀ k' c', k' < length before →
              raw_childrenIds rawUserMessage !! k' = Some c' →
              ∃ b, exploreBranch rawUserMessage c' = Some (Ok b)).
    { intros k' c' Hlt Hk'. rewrite Hids, lookup_app_l in Hk' by done.
      by apply (Forall_lookup_1 _ _ _ _ Hall Hk'). }
    split; [|split; [|split; [|split]]]; try done.
    + destruct (decide (i < length before)) as [Hlt|]; [|lia].
      destruct (Hbefore _ _ Hlt Hi) as [b Hb]. congruence.
    + by rewrite Hids, list_lookup_middle.
Qed.

(** ** The branches of a well-formed turn *)

Lemma messageChunks_length (m : RawNode) (cs : list ContentPart) :
  messageChunks m = Ok cs → length cs = chunkCount m.
Proof.
  unfold messageChunks, chunkCount. destruct (raw_content m) as [c|]; [|done].
  destruct (bool_decide (content_type c = "text") ||
            bool_decide (content_type c = "multimodal_text")) eqn:Htext.
  - rewrite bool_decide_eq_false_2.
    + destruct (parts c) as [ps|]; [|done]. intros [= <-]. by rewrite length_fmap.
    + intros Hexec. rewrite Hexec in Htext. done.
  - destruct (bool_decide (content_type c = "execution_output"));
      [by intros [= <-] | by intros [=]].
Qed.

Lemma buildSingleAssistantMessage_length (chain : list RawNode) (b : list ContentPart) :
  buildSingleAssistantMessage chain = Ok b → length b = sum_list (chunkCount <$> chain).
Proof.
  intros (css & Hcss & ->)%buildSingleAssistantMessage_concat.
  induction Hcss as [|m cs chain css Hm _ IH]; [done|].
  csimpl. rewrite length_app, IH. by rewrite (messageChunks_length _ _ Hm).
Qed.

Lemma buildSingleAssistantMessage_recognised (chain : list RawNode) :
  Forall recognised chain → ∃ b, buildSingleAssistantMessage chain = Ok b.
Proof.
  induction 1 as [|m chain [cs Hm] _ [b IH]]; [by exists []|].
  exists (cs ++ b). by rewrite buildSingleAssistantMessage_cons, Hm, IH.
Qed.

Lemma sum_list_ones (chain : list RawNode) :
  Forall (λ m, chunkCount m = 1) chain → sum_list (chunkCount <$> chain) = length chain.
Proof. induction 1 as [|m chain Hm _ IH]; csimpl; [done|]. by rewrite Hm, IH. Qed.

(** C3, as stated: the branch of a linear chain of [N] nodes would hold
    exactly [N] chunks.  It fails on a single reply made of two text parts,
    whose branch holds two chunks. *)
Lemma newMergedMessage_chunk_count_counterexample :
  ¬ (∀ (rawUserMessage : RawNode) (i : nat) (childId : string) (chain : list RawNode),
       raw_childrenIds rawUserMessage !! i = Some childId →
       validateAndExtractLinkedList rawUserMessage childId = Some (Ok chain) →
       ∃ m log bs b,
         newMergedMessage rawUserMessage = Some (m, log) ∧
         assistantBranches m = Some bs ∧ bs !! i = Some b ∧
         length b = length chain).
Proof.
  intros H.
  destruct (H twoPartTurn 0 "a1" [twoPartReply])
    as (m & log & bs & b & Hnew & Hbs & Hb & Hlen); try done.
  vm_compute in Hnew. injection Hnew as <- <-.
  injection Hbs as <-. injection Hb as <-. discriminate Hlen.
Qed.

(** C3, amended: when every outgoing chain of a human turn is linear and made
    of nodes with a recognised content, [build] produces exactly one
    assistant branch per chain, in the order of the outgoing ids; the branch
    is the conversion of its chain and holds one chunk per
    [execution_output] node and one chunk per part of every other node, so
    exactly [N] chunks when each of the [N] nodes contributes one. *)
Theorem newMergedMessage_assistantBranches
    (rawUserMessage : RawNode) (chains : list (list RawNode)) :
  Forall2 (λ childId chain,
             validateAndExtractLinkedList rawUserMessage childId = Some (Ok chain) ∧
             Forall recognised chain)
          (raw_childrenIds rawUserMessage) chains →
  ∃ m log bs,
    newMergedMessage rawUserMessage = Some (m, log) ∧
    assistantBranches m = Some bs ∧
    Forall2 (λ chain b,
               buildSingleAssistantMessage chain = Ok b ∧
               length b = sum_list (chunkCount <$> chain) ∧
               (Forall (λ m, chunkCount m = 1) chain → length b = length chain))
            chains bs.
Proof.
  intros Hchains.
  assert (Hbs : ∃ branches,
             exploreBranches rawUserMessage (raw_childrenIds rawUserMessage)
               = Some (Ok branches) ∧
             Forall2 (λ chain b, buildSingleAssistantMessage chain = Ok b)
                     chains branches.*2).
  { induction Hchains as [|cid chain ids chains [Hv Hrec] _ (branches & Hbs & Hall)].
    - exists []. by split; [|constructor].
    - destruct (buildSingleAssistantMessage_recognised _ Hrec) as [b Hb].
      exists ((last chain, b) :: branches). simpl.
      unfold exploreBranch. rewrite Hv, Hb, Hbs. simpl. by split; [|constructor]. }
  destruct Hbs as (branches & Hbs & Hall).
  pose proof (newMergedMessage_unfold rawUserMessage) as Hnew. rewrite Hbs in Hnew.
  destruct (newMergedMessage_total rawUserMessage) as [[m log] Hm].
  rewrite Hm in Hnew.
  destruct (aggregateLeaves newMergedMessage branches.*1 [] [])
    as [[[kids log'] thrown]|]; [|done].
  injection Hnew as -> ->.
  eexists _, _, _. split; [done|]. split; [done|].
  eapply Forall2_impl; [exact Hall|]. intros chain b Hb. split; [done|].
  pose proof (buildSingleAssistantMessage_length _ _ Hb) as Hlen. split; [done|].
  intros Hones. by rewrite Hlen, sum_list_ones.
Qed.

(** ** The log *)

Lemma pushLeafChildren_log (new : RawNode → option (MergedMessage * list LogEntry))
    (leafChildren : list (option RawNode))
    (kids kids' : list MergedMessage) (log log' : list LogEntry) (thrown : option JsError) :
  (∀ lc m l, new lc = Some (m, l) → onlyBranchFailures l) →
  onlyBranchFailures log →
  pushLeafChildren new leafChildren kids log = Some (kids', log', thrown) →
  onlyBranchFailures log'.
Proof.
  intros Hnew. revert kids log.
  induction leafChildren as [|[lc|] l IH]; intros kids log Hlog; simpl;
    try (by intros [= <- <- <-]).
  destruct (isUserMessage lc); [|by intros [= <- <- <-]].
  destruct (new lc) as [[child entries]|] eqn:Hlc; [|done].
  apply IH. apply Forall_app. split; [done|]. by eapply Hnew.
Qed.

Lemma aggregateLeaves_log (new : RawNode → option (MergedMessage * list LogEntry))
    (leafMessages : list (option RawNode))
    (kids kids' : list MergedMessage) (log log' : list LogEntry) (thrown : option JsError) :
  (∀ lc m l, new lc = Some (m, l) → onlyBranchFailures l) →
  onlyBranchFailures log →
  aggregateLeaves new leafMessages kids log = Some (kids', log', thrown) →
  onlyBranchFailures log'.
Proof.
  intros Hnew. revert kids log.
  induction leafMessages as [|[leaf|] l IH]; intros kids log Hlog; simpl;
    try (by intros [= <- <- <-]).
  destruct (pushLeafChildren new _ kids log) as [[[kids1 log1] [e|]]|] eqn:Hpush; [| |done].
  - intros [= <- <- <-]. by eapply pushLeafChildren_log.
  - apply IH. by eapply pushLeafChildren_log.
Qed.

Lemma construct_log (fuel : nat) (rawUserMessage : RawNode)
    (m : MergedMessage) (log : list LogEntry) :
  construct fuel rawUserMessage = Some (m, log) → onlyBranchFailures log.
Proof.
  revert rawUserMessage m log. induction fuel as [|fuel IH]; intros raw m log; [done|].
  simpl. destruct (exploreBranches raw (raw_childrenIds raw)) as [[branches|e]|]; [| |done].
  - destruct (aggregateLeaves (construct fuel) branches.*1 [] [])
      as [[[kids log1] thrown]|] eqn:Hagg; [|done].
    intros [= <- <-]. apply Forall_app. split.
    + eapply aggregateLeaves_log; [exact IH| |exact Hagg]. constructor.
    + destruct thrown; repeat constructor. by eexists.
  - intros [= <- <-]. repeat constructor. by eexists.
Qed.

(** C9: when [content], [content.parts] or [metadata.attachments] is absent,
    the extraction reads the missing collection as empty, the constructor
    still returns with [userMessageChunks] set to the chunks of what is
    present, and no failure of the user-message phase is logged. *)
Theorem loadUserMessage_missing_fields (rawUserMessage : RawNode) :
  missingField rawUserMessage →
  let rawParts :=
    match raw_content rawUserMessage with
    | Some c => match parts c with Some ps => ps | None => [] end
    | None => []
    end in
  let rawAttachments :=
    match raw_metadata rawUserMessage with
    | Some md => match attachments md with Some atts => atts | None => [] end
    | None => []
    end in
  loadUserMessage rawUserMessage =
    (attachmentFieldChunk <$> rawAttachments) ++
    (contentFieldChunk <$> omap asString rawParts) ∧
  (raw_content rawUserMessage ≫= parts = None →
     loadUserMessage rawUserMessage = attachmentFieldChunk <$> rawAttachments) ∧
  (raw_metadata rawUserMessage ≫= attachments = None →
     loadUserMessage rawUserMessage = contentFieldChunk <$> omap asString rawParts) ∧
  ∃ m log,
    newMergedMessage rawUserMessage = Some (m, log) ∧
    userMessageChunks m = Some (loadUserMessage rawUserMessage) ∧
    ∀ e, FailedUserMessage e ∉ log.
Proof.
  intros _ rawParts rawAttachments.
  assert (Hload : loadUserMessage rawUserMessage =
            (attachmentFieldChunk <$> rawAttachments) ++
            (contentFieldChunk <$> omap asString rawParts)).
  { unfold loadUserMessage. subst rawParts rawAttachments.
    destruct (raw_content rawUserMessage) as [[ct [ps|] tx]|];
      destruct (raw_metadata rawUserMessage) as [[[atts|] ar]|]; done. }
  split; [done|]. split; [|split].
  - intros Hparts. rewrite Hload. subst rawParts.
    destruct (raw_content rawUserMessage) as [[ct [ps|] tx]|]; simplify_eq/=;
      by rewrite app_nil_r.
  - intros Hatts. rewrite Hload. subst rawAttachments.
    by destruct (raw_metadata rawUserMessage) as [[[atts|] ar]|]; simplify_eq/=.
  - destruct (newMergedMessage_userMessageChunks rawUserMessage) as (m & log & Hm & Hchunks).
    exists m, log. split; [done|]. split; [done|].
    intros e He. apply construct_log in Hm.
    by destruct (proj1 (Forall_forall _ _) Hm _ He) as [e' ?].
Qed.

(** ** Empty chains *)

Lemma aggregateLeaves_app (new : RawNode → option (MergedMessage * list LogEntry))
    (leaves1 leaves2 : list (option RawNode))
    (kids : list MergedMessage) (log : list LogEntry) :
  aggregateLeaves new (leaves1 ++ leaves2) kids log =
  match aggregateLeaves new leaves1 kids log with
  | Some (kids', log', None) => aggregateLeaves new leaves2 kids' log'
  | r => r
  end.
Proof.
  revert kids log. induction leaves1 as [|[leaf|] l IH]; intros kids log; simpl; [done| |done].
  destruct (pushLeafChildren new _ kids log) as [[[kids1 log1] [e|]]|]; [done| |done].
  apply IH.
Qed.

(** ** Delete with promotion *)

Lemma promoteChildren_Ok (childChildren : option (gmap string MergedMessage))
    (childChildrenIds ids : list string) (kids : gmap string MergedMessage) :
  (childChildrenIds ≠ [] → is_Some childChildren) →
  promoteChildren childChildren childChildrenIds ids kids =
  Ok (ids ++ childChildrenIds, promoted (default ∅ childChildren) childChildrenIds kids).
Proof.
  revert ids kids. induction childChildrenIds as [|c cids IH]; intros ids kids Hcc; simpl.
  - by rewrite app_nil_r.
  - destruct Hcc as [cc ->]; [done|]. simpl.
    rewrite IH by (by eexists). simpl. by rewrite <-app_assoc.
Qed.

Lemma lookup_promoted (childChildren : gmap string MergedMessage)
    (childChildrenIds : list string) (kids : gmap string MergedMessage) (k : string) :
  promoted childChildren childChildrenIds kids !! k =
  if decide (k ∈ childChildrenIds) then childChildren !! k else kids !! k.
Proof.
  unfold promoted. revert kids.
  induction childChildrenIds as [|c cids IH]; intros kids; cbn [foldl].
  - by rewrite decide_False by apply not_elem_of_nil.
  - rewrite IH. destruct (decide (k ∈ cids)) as [Hin|Hnin].
    + by rewrite decide_True by (by right).
    + destruct (decide (k = c)) as [->|Hne].
      * rewrite decide_True by (by left). by rewrite lookup_partial_alter_eq.
      * rewrite decide_False by (by intros [?|?]%elem_of_cons).
        by rewrite lookup_partial_alter_ne.
Qed.

Lemma filter_all {A} (P : A → Prop) `{!∀ x, Decision (P x)} (l : list A) :
  (∀ x, x ∈ l → P x) → filter P l = l.
Proof.
  induction l as [|x l IH]; intros Hall; [done|].
  rewrite filter_cons_True by (apply Hall; by left).
  rewrite IH; [done|]. intros y Hy. apply Hall. by right.
Qed.

(** The base case of [deleteChildMessageById], whatever [recurse] and the
    fuel. *)
Lemma deleteChildMessageById_direct (fuel : nat) (X : string) (recurse : bool)
    (this child : MergedMessage) (ids cids : list string)
    (kids : gmap string MergedMessage) :
  childrenIds this = Some ids → children this = Some kids →
  X ∈ ids → kids !! X = Some child →
  childrenIds child = Some cids →
  (cids ≠ [] → is_Some (children child)) →
  deleteChildMessageById fuel X recurse this =
  Some (Ok (setChildren this
              (Some (filter (λ c, c ≠ X) (ids ++ cids)))
              (Some (delete X (promoted (default ∅ (children child)) cids kids))))).
Proof.
  intros Hids Hkids HX Hchild Hcids Hcc.
  assert (Hstep : ∀ rec_case,
    (match childrenIds this with
     | None => Some (Throw TypeError)
     | Some ids0 =>
         if bool_decide (X ∈ ids0) then
           match children this ≫= (.!! X) with
           | None => Some (Throw TypeError)
           | Some child0 =>
               match childrenIds child0 with
               | None => Some (Throw TypeError)
               | Some childChildrenIds =>
                   match promoteChildren (children child0) childChildrenIds ids0
                           (default ∅ (children this)) with
                   | Throw e => Some (Throw e)
                   | Ok (ids', kids') =>
                       Some (Ok (setChildren this
                                   (Some (filter (λ childId, childId ≠ X) ids'))
                                   (Some (delete X kids'))))
                   end
               end
           end
         else rec_case ids0
     end) =
    Some (Ok (setChildren this
                (Some (filter (λ c, c ≠ X) (ids ++ cids)))
                (Some (delete X (promoted (default ∅ (children child)) cids kids)))))).
  { intros rec_case. rewrite Hids, bool_decide_eq_true_2 by done.
    rewrite Hkids. simpl. rewrite Hchild, Hcids.
    by rewrite promoteChildren_Ok. }
  destruct fuel; simpl; apply Hstep.
Qed.

(** C4: deleting a direct child [X] removes [X] from [childrenIds] and from
    [children], keeps the pre-existing ids in their order, appends the ids of
    the children of [X] after them in their own order, and gives each
    promoted id the very entry it had under [X], subtree included; entries
    of other keys are untouched. *)
Theorem deleteChildMessageById_promotes (fuel : nat) (X : string) (recurse : bool)
    (this child : MergedMessage) (ids cids : list string)
    (kids : gmap string MergedMessage) :
  childrenIds this = Some ids → children this = Some kids →
  X ∈ ids → kids !! X = Some child →
  childrenIds child = Some cids →
  (cids ≠ [] → is_Some (children child)) →
  ∃ this' ids' kids',
    deleteChildMessageById fuel X recurse this = Some (Ok this') ∧
    childrenIds this' = Some ids' ∧ children this' = Some kids' ∧
    ids' = filter (λ c, c ≠ X) ids ++ filter (λ c, c ≠ X) cids ∧
    (X ∉ cids → ids' = filter (λ c, c ≠ X) ids ++ cids) ∧
    (X ∉ ids') ∧
    kids' !! X = None ∧
    (∀ Y, Y ∈ cids → Y ≠ X → kids' !! Y = children child ≫= (.!! Y)) ∧
    (∀ k, k ∉ cids → k ≠ X → kids' !! k = kids !! k) ∧
    message_id this' = message_id this ∧
    userMessageChunks this' = userMessageChunks this ∧
    assistantBranches this' = assistantBranches this.
Proof.
  intros Hids Hkids HX Hchild Hcids Hcc.
  eexists _, _, _. split; [by eapply deleteChildMessageById_direct|].
  split; [done|]. split; [done|]. split; [by rewrite filter_app|].
  split; [|split; [|split; [|split; [|split; [|done]]]]].
  - intros HnX. rewrite filter_app. f_equal. apply filter_all.
    intros c Hc ->. done.
  - by intros [HXX _]%list_elem_of_filter.
  - by rewrite lookup_delete_eq.
  - intros Y HY HYX. rewrite lookup_delete_ne by done.
    rewrite lookup_promoted, decide_True by done. by destruct (children child).
  - intros k Hk HkX. rewrite lookup_delete_ne by done.
    by rewrite lookup_promoted, decide_False.
Qed.

Lemma deleteChildMessageById_consistent (fuel : nat) (X : string) (recurse : bool)
    (this child : MergedMessage) (ids : list string) (kids : gmap string MergedMessage) :
  childrenIds this = Some ids → children this = Some kids →
  (∀ k, k ∈ ids ↔ is_Some (kids !! k)) →
  X ∈ ids → kids !! X = Some child → childrenConsistent child →
  ∃ this',
    deleteChildMessageById fuel X recurse this = Some (Ok this') ∧
    childrenConsistent this'.
Proof.
  intros Hids Hkids Hcons HX Hchild (cids & ckids & Hcids & Hckids & Hccons).
  eexists. split.
  { by eapply deleteChildMessageById_direct. }
  eexists _, _. split; [done|]. split; [done|].
  intros k. rewrite list_elem_of_filter, elem_of_app, Hckids. simpl.
  destruct (decide (k = X)) as [->|Hne].
  - rewrite lookup_delete_eq. split; [by intros [? _] | by intros [? ?]].
  - rewrite lookup_delete_ne, lookup_promoted by done.
    destruct (decide (k ∈ cids)) as [Hin|Hnin].
    + rewrite <-Hccons. tauto.
    + rewrite <-Hcons. tauto.
Qed.

(** The recursive case terminates: with the height of the tree as fuel the
    call returns, and a tree it returns is no higher than the one it got. *)
Lemma map_fold_max_le {A} (f : A → nat) (m : gmap string A) (n : nat) :
  map_fold (λ _ c acc, f c `max` acc) 0 m ≤ n ↔ ∀ k c, m !! k = Some c → f c ≤ n.
Proof.
  apply (map_fold_weak_ind
           (λ r (m : gmap string A), r ≤ n ↔ ∀ k c, m !! k = Some c → f c ≤ n)).
  - split; [by intros _ k c; rewrite lookup_empty | lia].
  - intros i x m' r Hi IH. split.
    + intros Hmax k c. rewrite lookup_insert. case_decide.
      * intros [= <-]. lia.
      * apply IH. lia.
    + intros Hall. apply Nat.max_lub.
      * apply (Hall i). by rewrite lookup_insert_eq.
      * apply IH. intros k c Hk. apply (Hall k).
        rewrite lookup_insert_ne; [done|]. by intros ->; rewrite Hi in Hk.
Qed.

Lemma messageHeight_le (m : MergedMessage) (n : nat) :
  messageHeight m ≤ S n ↔
  ∀ kids k c, children m = Some kids → kids !! k = Some c → messageHeight c ≤ n.
Proof.
  destruct m as [i umc ab [kids|] ids a r c mt]; simpl.
  - rewrite <-Nat.succ_le_mono, map_fold_max_le. split.
    + intros Hall kids' k c' [= <-]. apply Hall.
    + intros Hall k c'. by apply Hall.
  - split; [done | lia].
Qed.

Lemma promoteChildren_cases (childChildren : option (gmap string MergedMessage))
    (childChildrenIds ids : list string) (kids : gmap string MergedMessage) :
  promoteChildren childChildren childChildrenIds ids kids = Throw TypeError ∨
  promoteChildren childChildren childChildrenIds ids kids =
    Ok (ids ++ childChildrenIds, promoted (default ∅ childChildren) childChildrenIds kids).
Proof.
  destruct childChildren as [cc|].
  - right. apply promoteChildren_Ok. by eexists.
  - destruct childChildrenIds as [|c cids]; [right|by left].
    apply promoteChildren_Ok. done.
Qed.

Lemma deleteInChildren_height (del : MergedMessage → option (Result MergedMessage))
    (n : nat) (ids : list string) (thisChildren : option (gmap string MergedMessage)) :
  (∀ c, messageHeight c ≤ n →
        ∃ r, del c = Some r ∧
             match r with Ok c' => messageHeight c' ≤ n | Throw _ => True end) →
  (∀ kids k c, thisChildren = Some kids → kids !! k = Some c → messageHeight c ≤ n) →
  ∃ r, deleteInChildren del ids thisChildren = Some r ∧
       match r with
       | Ok kids' =>
           ∀ kids k c, kids' = Some kids → kids !! k = Some c → messageHeight c ≤ n
       | Throw _ => True
       end.
Proof.
  intros Hdel. revert thisChildren.
  induction ids as [|childId ids IH]; intros thisChildren Hkids; simpl.
  - by eexists.
  - destruct thisChildren as [kids|]; simpl; [|by eexists].
    destruct (kids !! childId) as [child|] eqn:Hchild; [|by eexists].
    destruct (Hdel child) as ([child'|e] & -> & Hh); [by eapply Hkids| |by eexists].
    apply IH. intros kids' k c [= <-]. rewrite lookup_insert. case_decide.
    + by intros [= <-].
    + by apply Hkids.
Qed.

Lemma deleteChildMessageById_height (fuel : nat) (id : string) (recurse : bool)
    (this : MergedMessage) :
  messageHeight this ≤ fuel →
  ∃ r, deleteChildMessageById fuel id recurse this = Some r ∧
       match r with
       | Ok this' => messageHeight this' ≤ messageHeight this
       | Throw _ => True
       end.
Proof.
  revert recurse this. induction fuel as [|fuel IH]; intros recurse this Hh.
  { destruct this; simpl in Hh; lia. }
  assert (Hsub : ∀ kids k c, children this = Some kids → kids !! k = Some c →
                             messageHeight c ≤ messageHeight this - 1).
  { apply messageHeight_le. destruct this; simpl; lia. }
  assert (Hset : ∀ ids' kids',
            (∀ k c, kids' !! k = Some c → messageHeight c ≤ messageHeight this - 1) →
            messageHeight (setChildren this ids' (Some kids')) ≤ messageHeight this).
  { intros ids' kids' Hall.
    replace (messageHeight this) with (S (messageHeight this - 1))
      by (destruct this; simpl; lia).
    apply messageHeight_le. intros kids k c [= <-]. apply Hall. }
  simpl. destruct (childrenIds this) as [ids|]; [|by eexists].
  case_bool_decide.
  - destruct (children this) as [kids|] eqn:Hkids; simpl; [|by eexists].
    destruct (kids !! id) as [child|] eqn:Hchild; [|by eexists].
    destruct (childrenIds child) as [cids|]; [|by eexists].
    destruct (promoteChildren_cases (children child) cids ids kids) as [-> | ->];
      [by eexists|].
    eexists. split; [done|]. apply Hset. intros k c.
    destruct (decide (k = id)) as [->|Hne]; [by rewrite lookup_delete_eq|].
    rewrite lookup_delete_ne, lookup_promoted by done. case_decide.
    + pose proof (Hsub _ _ _ eq_refl Hchild) as Hchild_h.
      destruct (children child) as [cc|] eqn:Hcc; simpl; [|by rewrite lookup_empty].
      intros Hc. assert (messageHeight c ≤ messageHeight child - 1); [|lia].
      assert (Hle : messageHeight child ≤ S (messageHeight child - 1)) by lia.
      exact (proj1 (messageHeight_le child _) Hle cc k c Hcc Hc).
    + by apply (Hsub kids).
  - destruct recurse; [|exists (Ok this); split; [done|lia]].
    destruct (deleteInChildren_height (deleteChildMessageById fuel id true)
                (messageHeight this - 1) ids (children this))
      as ([kids'|e] & -> & Hres); [| |destruct kids' as [kids'|]|by eexists].
    + intros c Hc. destruct (IH true c) as (r & Hr & Hrh); [lia|].
      exists r. split; [done|]. destruct r; [lia|done].
    + done.
    + eexists. split; [done|]. apply Hset. intros k c. by apply Hres.
    + eexists. split; [done|]. destruct this; simpl; lia.
Qed.

(** ** The children of a constructed message *)

Lemma newMergedMessage_childrenIds (rawUserMessage : RawNode)
    (m : MergedMessage) (log : list LogEntry) :
  newMergedMessage rawUserMessage = Some (m, log) → childrenIds m = None.
Proof.
  rewrite newMergedMessage_unfold.
  destruct (exploreBranches _ _) as [[branches|e]|]; [| |done].
  - destruct (aggregateLeaves _ _ _ _) as [[[kids log1] thrown]|]; [|done].
    by intros [= <- <-].
  - by intros [= <- <-].
Qed.

(** C2, on a turn with a reply and a follow-up turn: the constructor returns
    an instance whose [childrenIds] was never assigned and whose [children]
    is an array holding the follow-up at index 0, not under its id; the
    pairing of [childrenIds] and [children] does not hold, and deleting the
    follow-up by id throws. *)
Theorem newMergedMessage_childrenIds_unset :
  ∃ m child,
    newMergedMessage firstTurn = Some (m, []) ∧
    childrenIds m = None ∧
    children m ≫= (.!! "0") = Some child ∧ message_id child = "u2" ∧
    children m ≫= (.!! "u2") = None ∧
    ¬ childrenConsistent m ∧
    ∀ fuel recurse, deleteChildMessageById fuel "u2" recurse m = Some (Throw TypeError).
Proof.
  eexists _, _. split; [vm_compute; reflexivity|].
  split; [done|]. split; [vm_compute; reflexivity|].
  split; [done|]. split; [done|]. split.
  - by intros (ids & kids & Hids & _).
  - by intros [|fuel] recurse.
Qed.

(** ** Assistant-message merge *)

(** C8: on an image-generation tool node whose single child is authored by
    the assistant, the merge appends the child's parts to the node's own,
    takes over the child's author and metadata, and deletes the child with
    [recurse] false; in both recognised cases a child count other than one
    raises the case's assertion error; any other author and recipient raise
    the unexpected-entry error. *)
Theorem mergeSubsequentAssistantMessages_spec
    (fuel : nat) (this : MergedMessage) (a : Author) :
  author this = Some a →
  (role a = "tool" → name a = Some "dalle.text2im" →
   ∀ childId assistantMessage childAuthor c ps childContent childParts cids,
     childrenIds this = Some [childId] →
     children this ≫= (.!! childId) = Some assistantMessage →
     author assistantMessage = Some childAuthor → role childAuthor = "assistant" →
     content this = Some c → parts c = Some ps →
     content assistantMessage = Some childContent →
     parts childContent = Some childParts →
     childrenIds assistantMessage = Some cids →
     (cids ≠ [] → is_Some (children assistantMessage)) →
     ∃ merged this' kids',
       mergeSubsequentAssistantMessages fuel this =
         deleteChildMessageById fuel childId false merged ∧
       content merged =
         Some (mkContent (content_type c) (Some (ps ++ childParts)) (text c)) ∧
       author merged = Some childAuthor ∧ meta merged = meta assistantMessage ∧
       childrenIds merged = childrenIds this ∧ children merged = children this ∧
       mergeSubsequentAssistantMessages fuel this = Some (Ok this') ∧
       content this' = content merged ∧ author this' = author merged ∧
       meta this' = meta merged ∧
       childrenIds this' = Some (filter (λ k, k ≠ childId) cids) ∧
       children this' = Some kids' ∧ kids' !! childId = None ∧
       (∀ k, k ∈ cids → k ≠ childId →
             kids' !! k = children assistantMessage ≫= (.!! k))) ∧
  (∀ ids, childrenIds this = Some ids → length ids ≠ 1 →
     (role a = "tool" → name a = Some "dalle.text2im" →
        mergeSubsequentAssistantMessages fuel this = Some (Throw DalleChildCount)) ∧
     (role a = "assistant" → recipient this = Some "python" →
        mergeSubsequentAssistantMessages fuel this = Some (Throw CodeBlockChildCount))) ∧
  (¬ (role a = "tool" ∧ name a = Some "dalle.text2im") →
   ¬ (role a = "assistant" ∧ recipient this = Some "python") →
     mergeSubsequentAssistantMessages fuel this = Some (Throw UnexpectedEntry)).
Proof.
  intros Ha. unfold mergeSubsequentAssistantMessages. rewrite Ha.
  split; [|split].
  - intros Hrole Hname childId am childAuthor c ps childContent childParts cids
      Hids Hchild Hauthor Hassistant Hc Hps Hcc Hcps Hcids Hkids.
    rewrite !bool_decide_eq_true_2 by done. simpl.
    rewrite Hids, Hchild, Hauthor, bool_decide_eq_false_2 by (by intros []).
    rewrite Hc, Hcc, Hps, Hcps.
    destruct (children this) as [kids|] eqn:Hthis; [|done]. simpl in Hchild.
    eexists _, _, _. split; [done|]. do 5 (split; [done|]).
    split.
    { eapply deleteChildMessageById_direct; simpl; try done. by left. }
    simpl. do 3 (split; [done|]).
    split; [by rewrite filter_cons_False by (by intros [])|].
    split; [done|]. split; [by rewrite lookup_delete_eq|].
    intros k Hk Hne. rewrite lookup_delete_ne, lookup_promoted, decide_True by done.
    by destruct (children am).
  - intros ids Hids Hlen. rewrite Hids. split.
    + intros Hrole Hname. rewrite !bool_decide_eq_true_2 by done. simpl.
      by destruct ids as [|? [|? ?]].
    + intros Hrole Hrecipient.
      rewrite (bool_decide_eq_false_2 (role a = "tool")) by congruence. simpl.
      rewrite !bool_decide_eq_true_2 by done. simpl.
      by destruct ids as [|? [|? ?]].
  - intros Hdalle Hpython.
    destruct (bool_decide (role a = "tool") && bool_decide (name a = Some "dalle.text2im"))
      eqn:H1.
    { apply andb_true_iff in H1 as [?%bool_decide_eq_true ?%bool_decide_eq_true].
      by destruct Hdalle. }
    destruct (bool_decide (role a = "assistant") &&
              bool_decide (recipient this = Some "python")) eqn:H2; [|done].
    apply andb_true_iff in H2 as [?%bool_decide_eq_true ?%bool_decide_eq_true].
    by destruct Hpython.
Qed.

(** * The theorems at the sample inputs *)

(** The regenerated turn, whose second branch forks: nothing of the branch
    phase is kept. *)
Lemma newMergedMessage_branch_failure_witness :
  ∃ e', newMergedMessage regeneratedTurn =
        Some (withoutBranches regeneratedTurn, [FailedAssistantMessages e']).
Proof.
  destruct (newMergedMessage_branch_failure regeneratedTurn 1 "b1" BranchNotLinear)
    as (k & ck & e' & _ & _ & _ & _ & Hnew).
  - reflexivity.
  - vm_compute. reflexivity.
  - exists e'. exact Hnew.
Defined.

(** The turn with one reply of one part: one branch of one chunk. *)
Lemma newMergedMessage_assistantBranches_witness :
  ∃ m log bs b,
    newMergedMessage firstTurn = Some (m, log) ∧ assistantBranches m = Some bs ∧
    bs = [b] ∧ buildSingleAssistantMessage [firstReply] = Ok b ∧ length b = 1.
Proof.
  destruct (newMergedMessage_assistantBranches firstTurn [[firstReply]])
    as (m & log & bs & Hnew & Hbs & Hall).
  - constructor; [|constructor]. split; [vm_compute; reflexivity|].
    constructor; [|constructor]. eexists. vm_compute. reflexivity.
  - apply Forall2_cons_inv_l in Hall as (b & bs' & (Hb & _ & Hlen) & Hnil & ->).
    apply Forall2_nil_inv_l in Hnil as ->.
    exists m, log, [b], b. repeat split; try assumption.
    apply Hlen. constructor; [reflexivity|constructor].
Defined.

(** Deleting [X] below [P]: [Y] and [Z] come after [W], and [Y] keeps its
    own child. *)
Lemma deleteChildMessageById_promotes_witness :
  ∃ this' kids',
    deleteChildMessageById 0 "X" false messageP = Some (Ok this') ∧
    childrenIds this' = Some ["W"; "Y"; "Z"] ∧
    children this' = Some kids' ∧
    kids' !! "X" = None ∧ kids' !! "Y" = Some messageY.
Proof.
  destruct (deleteChildMessageById_promotes 0 "X" false messageP messageX
              ["W"; "X"] ["Y"; "Z"]
              {[ "W" := leafMessage "W"; "X" := messageX ]})
    as (this' & ids' & kids' & Hdel & Hids & Hkids & _ & Hids' & _ & HX & HY & _).
  - reflexivity.
  - reflexivity.
  - vm_compute. right. left.
  - vm_compute. reflexivity.
  - reflexivity.
  - intros _. eexists. reflexivity.
  - exists this', kids'. split; [exact Hdel|]. split.
    + rewrite Hids, Hids'; [reflexivity|]. vm_compute. intros H.
      apply elem_of_cons in H as [H|H]; [discriminate H|].
      apply elem_of_cons in H as [H|H]; [discriminate H|].
      by apply elem_of_nil in H.
    + split; [exact Hkids|]. split; [exact HX|].
      rewrite (HY "Y"); [vm_compute; reflexivity | left | discriminate].
Defined.

(** A code-execution result without metadata, and a node of unknown content
    type, each after a plain reply. *)
Lemma buildSingleAssistantMessage_dispatch_witness :
  buildSingleAssistantMessage ([plainReply] ++ [executionOutput]) =
    Ok [mkContentPart "text" (Str "4") None;
        mkContentPart "code" (CodeOutput "" (Some "42")) None] ∧
  buildSingleAssistantMessage ([plainReply] ++ systemError :: [executionOutput]) =
    Throw (UnexpectedContentType "system_error").
Proof.
  split.
  - apply (buildSingleAssistantMessage_dispatch [plainReply] [] executionOutput
             (mkContent "execution_output" None (Some "42"))
             [mkContentPart "text" (Str "4") None]);
      reflexivity.
  - apply (buildSingleAssistantMessage_dispatch [plainReply] [executionOutput] systemError
             (mkContent "system_error" None (Some "boom"))
             [mkContentPart "text" (Str "4") None]);
      (reflexivity || discriminate).
Defined.

(** A user turn without [content]: the attachment chunk alone. *)
Lemma loadUserMessage_missing_fields_witness :
  loadUserMessage attachmentOnlyTurn =
    [mkContentPart "image" (Str "file-1") (Some "image/png")] ∧
  ∃ m log,
    newMergedMessage attachmentOnlyTurn = Some (m, log) ∧
    userMessageChunks m = Some (loadUserMessage attachmentOnlyTurn) ∧
    ∀ e, FailedUserMessage e ∉ log.
Proof.
  destruct (loadUserMessage_missing_fields attachmentOnlyTurn) as (_ & Hparts & _ & Hnew).
  - left. reflexivity.
  - split; [|exact Hnew]. rewrite Hparts; reflexivity.
Defined.

(** The merge on an image-generation node with one assistant child, on
    nodes of both recognised kinds without child, and on a system node. *)
Lemma mergeSubsequentAssistantMessages_spec_witness :
  (∃ this',
     mergeSubsequentAssistantMessages 0 (dalleMessage ["A"]) = Some (Ok this') ∧
     content this' =
       Some (mkContent "multimodal_text"
               (Some [PartObject "file-service://file-img";
                      PartString "Here is your image."]) None) ∧
     author this' = Some (mkAuthor "assistant" None) ∧
     childrenIds this' = Some []) ∧
  mergeSubsequentAssistantMessages 0 (dalleMessage []) = Some (Throw DalleChildCount) ∧
  mergeSubsequentAssistantMessages 0 (pythonMessage []) = Some (Throw CodeBlockChildCount) ∧
  mergeSubsequentAssistantMessages 0 systemMessage = Some (Throw UnexpectedEntry).
Proof.
  split; [|split; [|split]].
  - destruct (mergeSubsequentAssistantMessages_spec 0 (dalleMessage ["A"])
                (mkAuthor "tool" (Some "dalle.text2im")) eq_refl) as (Hmerge & _ & _).
    destruct (Hmerge eq_refl eq_refl "A" assistantComment (mkAuthor "assistant" None)
                (mkContent "multimodal_text" (Some [PartObject "file-service://file-img"]) None)
                [PartObject "file-service://file-img"]
                (mkContent "text" (Some [PartString "Here is your image."]) None)
                [PartString "Here is your image."] [])
      as (merged & this' & kids' & _ & Hc & Ha & _ & _ & _ & Hres & Hc' & Ha' & _ & Hids & _);
      try reflexivity.
    + intros H. destruct H. reflexivity.
    + exists this'. split; [exact Hres|].
      split; [rewrite Hc', Hc; reflexivity|].
      split; [rewrite Ha', Ha; reflexivity | exact Hids].
  - destruct (mergeSubsequentAssistantMessages_spec 0 (dalleMessage [])
                (mkAuthor "tool" (Some "dalle.text2im")) eq_refl) as (_ & Hcount & _).
    destruct (Hcount [] eq_refl) as [Hdalle _]; [discriminate|].
    apply Hdalle; reflexivity.
  - destruct (mergeSubsequentAssistantMessages_spec 0 (pythonMessage [])
                (mkAuthor "assistant" None) eq_refl) as (_ & Hcount & _).
    destruct (Hcount [] eq_refl) as [_ Hpython]; [discriminate|].
    apply Hpython; reflexivity.
  - destruct (mergeSubsequentAssistantMessages_spec 0 systemMessage
                (mkAuthor "system" None) eq_refl) as (_ & _ & Hother).
    apply Hother; intros [H _]; discriminate H.
Defined.

(** * Further properties *)

(** ** Arrays as property maps *)

Lemma list_to_map_imap_lookup {A} (l : list A) (n j : nat) :
  (list_to_map (imap (λ i x, (pretty (n + i), x)) l) : gmap string A) !! pretty j =
  if decide (n ≤ j) then l !! (j - n) else None.
Proof.
  revert n. induction l as [|x l IH]; intros n; simpl.
  - rewrite lookup_empty. by case_decide.
  - rewrite lookup_insert. case_decide as Heq.
    + apply (inj pretty) in Heq. subst j.
      rewrite decide_True by lia. by replace (n + 0 - n) with 0 by lia.
    + rewrite (imap_ext _ (λ i x, (pretty (S n + i), x))).
      2:{ intros i y _. simpl. do 2 f_equal. lia. }
      rewrite IH. assert (j ≠ n) by (intros ->; apply Heq; f_equal; lia).
      repeat case_decide; try lia; [|done].
      by replace (j - n) with (S (j - S n)) by lia.
Qed.

Lemma arrayProps_lookup {A} (l : list A) (i : nat) :
  arrayProps l !! pretty i = l !! i.
Proof.
  pose proof (list_to_map_imap_lookup l 0 i) as Hl.
  rewrite decide_True in Hl by lia. replace (i - 0) with i in Hl by lia.
  exact Hl.
Qed.

Lemma arrayProps_lookup_Some {A} (l : list A) (k : string) (x : A) :
  arrayProps l !! k = Some x → ∃ i, k = pretty i ∧ l !! i = Some x.
Proof.
  unfold arrayProps. intros Hk%elem_of_list_to_map_2.
  apply elem_of_lookup_imap_1 in Hk as (i & y & [= -> ->] & Hi). by exists i.
Qed.

Lemma arrayElementsFrom_arrayProps {A} (l : list A) (fuel i : nat) :
  arrayElementsFrom fuel i (arrayProps l) = take fuel (drop i l).
Proof.
  revert i. induction fuel as [|fuel IH]; intros i; simpl; [done|].
  rewrite arrayProps_lookup. destruct (l !! i) as [x|] eqn:Hi.
  - rewrite IH. by rewrite (drop_S _ _ _ Hi).
  - by rewrite drop_ge by (by apply lookup_ge_None).
Qed.

Lemma size_arrayProps {A} (l : list A) : size (arrayProps l) = length l.
Proof.
  unfold arrayProps. rewrite map_size_list_to_map, length_imap; [done|].
  rewrite fmap_imap. apply NoDup_alt. intros i j k Hi Hj.
  apply list_lookup_imap_Some in Hi as (x & _ & ->).
  apply list_lookup_imap_Some in Hj as (y & _ & Hk).
  simpl in Hk. by apply (inj pretty) in Hk.
Qed.

Lemma arrayElements_arrayProps {A} (l : list A) : arrayElements (arrayProps l) = l.
Proof.
  unfold arrayElements.
  by rewrite arrayElementsFrom_arrayProps, size_arrayProps, drop_0, firstn_all.
Qed.

Lemma arrayElementsFrom_lookup {A} (props : gmap string A) (fuel i : nat) (x : A) :
  x ∈ arrayElementsFrom fuel i props → ∃ k, props !! k = Some x.
Proof.
  revert i. induction fuel as [|fuel IH]; intros i; simpl; [by intros ?%elem_of_nil|].
  destruct (props !! pretty i) as [y|] eqn:Hi; [|by intros ?%elem_of_nil].
  intros [->|Hin]%elem_of_cons; [by eexists | by eapply IH].
Qed.

(** ** What the constructor builds *)

Lemma pushLeafChildren_built (new : RawNode → option (MergedMessage * list LogEntry))
    (leafChildren : list (option RawNode))
    (kids kids' : list MergedMessage) (log log' : list LogEntry) (thrown : option JsError) :
  pushLeafChildren new leafChildren kids log = Some (kids', log', thrown) →
  ∃ built : list (RawNode * (MergedMessage * list LogEntry)),
    Forall (λ b, Some b.1 ∈ leafChildren ∧ isUserMessage b.1 = true ∧ new b.1 = Some b.2)
           built ∧
    kids' = kids ++ (fst ∘ snd <$> built) ∧
    log' = log ++ concat (snd ∘ snd <$> built) ∧
    length built ≤ length leafChildren ∧
    (∀ e, thrown = Some e →
          e = TypeError ∨
          e = LeafChildNotUser ∧ ∃ lc, Some lc ∈ leafChildren ∧ isUserMessage lc = false).
Proof.
  revert kids log. induction leafChildren as [|[lc|] l IH]; intros kids log; simpl.
  - intros [= <- <- <-]. exists []. rewrite !app_nil_r. by repeat split.
  - destruct (isUserMessage lc) eqn:Hu.
    + destruct (new lc) as [[child entries]|] eqn:Hnew; [|done].
      intros (built & Hall & -> & -> & Hlen & Hthrown)%IH.
      exists ((lc, (child, entries)) :: built). split; [|split; [|split; [|split]]].
      * constructor; [by repeat split; [left|..]|].
        eapply Forall_impl; [exact Hall|]. intros b (? & ? & ?). by repeat split; [right|..].
      * csimpl. by rewrite <-app_assoc.
      * csimpl. by rewrite <-!app_assoc.
      * simpl. lia.
      * intros e He. destruct (Hthrown e He) as [?|(? & lc' & ? & ?)]; [by left|].
        right. split; [done|]. exists lc'. by split; [right|].
    + intros [= <- <- <-]. exists []. rewrite !app_nil_r. repeat split; try done.
      * simpl; lia.
      * intros e [= <-]. right. split; [done|]. exists lc. by split; [left|].
  - intros [= <- <- <-]. exists []. rewrite !app_nil_r. repeat split; try done.
    + simpl; lia.
    + intros e [= <-]. by left.
Qed.

Lemma aggregateLeaves_built (new : RawNode → option (MergedMessage * list LogEntry))
    (leafMessages : list (option RawNode))
    (kids kids' : list MergedMessage) (log log' : list LogEntry) (thrown : option JsError) :
  aggregateLeaves new leafMessages kids log = Some (kids', log', thrown) →
  ∃ built : list (RawNode * (MergedMessage * list LogEntry)),
    Forall (λ b, nextTurnOf leafMessages b.1 ∧ new b.1 = Some b.2) built ∧
    kids' = kids ++ (fst ∘ snd <$> built) ∧
    log' = log ++ concat (snd ∘ snd <$> built) ∧
    length built ≤ sum_list (leafChildCount <$> leafMessages) ∧
    (∀ e, thrown = Some e →
          e = TypeError ∨
          e = LeafChildNotUser ∧
          ∃ leaf k lc, Some leaf ∈ leafMessages ∧ k ∈ raw_childrenIds leaf ∧
                       raw_children leaf !! k = Some lc ∧ isUserMessage lc = false).
Proof.
  revert kids log. induction leafMessages as [|[leaf|] l IH]; intros kids log; simpl.
  - intros [= <- <- <-]. exists []. rewrite !app_nil_r. by repeat split.
  - destruct (pushLeafChildren new _ kids log) as [[[kids1 log1] thrown1]|] eqn:Hpush;
      [|done].
    apply pushLeafChildren_built in Hpush
      as (built1 & Hall1 & -> & -> & Hlen1 & Hthrown1).
    rewrite length_fmap in Hlen1.
    assert (Hnext : Forall (λ b, nextTurnOf (Some leaf :: l) b.1 ∧ new b.1 = Some b.2)
                           built1).
    { eapply Forall_impl; [exact Hall1|].
      intros b ((k & Hk & Hin)%list_elem_of_fmap & Hu & Hnew). split; [|done].
      exists leaf, k. by repeat split; [left|..]. }
    assert (Hthrown : ∀ e, thrown1 = Some e →
              e = TypeError ∨
              e = LeafChildNotUser ∧
              ∃ leaf' k lc, Some leaf' ∈ Some leaf :: l ∧ k ∈ raw_childrenIds leaf' ∧
                            raw_children leaf' !! k = Some lc ∧ isUserMessage lc = false).
    { intros e He.
      destruct (Hthrown1 e He) as [?|(? & lc & (k & Hk & Hin)%list_elem_of_fmap & Hu)];
        [by left|].
      right. split; [done|]. exists leaf, k, lc. by repeat split; [left|..]. }
    destruct thrown1 as [e1|].
    + intros [= <- <- <-]. exists built1. repeat split; try done. csimpl.
      etrans; [exact Hlen1|]. apply Nat.le_add_r.
    + intros (built & Hall & -> & -> & Hlen & Hthrown')%IH.
      exists (built1 ++ built). split; [|split; [|split; [|split]]].
      * apply Forall_app. split; [done|].
        eapply Forall_impl; [exact Hall|].
        intros b ((leaf' & k & ? & ? & ? & ?) & ?). split; [|done].
        exists leaf', k. by repeat split; [right|..].
      * by rewrite fmap_app, app_assoc.
      * by rewrite fmap_app, concat_app, app_assoc.
      * rewrite length_app. csimpl. by apply Nat.add_le_mono.
      * intros e He.
        destruct (Hthrown' e He) as [?|(? & leaf' & k & lc & ? & ? & ? & ?)]; [by left|].
        right. split; [done|]. exists leaf', k, lc. by repeat split; [right|..].
  - intros [= <- <- <-]. exists []. rewrite !app_nil_r. repeat split; try done.
    + simpl; lia.
    + intros e [= <-]. by left.
Qed.

Lemma exploreBranch_leaf_stop (rawUserMessage : RawNode) (childId : string)
    (leaf : RawNode) (chunks : list ContentPart) :
  exploreBranch rawUserMessage childId = Some (Ok (Some leaf, chunks)) → stopsAt leaf.
Proof.
  unfold exploreBranch.
  destruct (validateAndExtractLinkedList rawUserMessage childId) as [[chain|e]|] eqn:Hv;
    [|done..].
  destruct (buildSingleAssistantMessage chain) as [cs|e]; simpl; [|done].
  intros [= Hl <-]. apply validateAndExtractLinkedList_Ok, Follows_stop in Hv.
  by rewrite Hl in Hv.
Qed.

Lemma exploreBranches_leaf_stop (rawUserMessage : RawNode) (ids : list string)
    (branches : list (option RawNode * list ContentPart)) (leaf : RawNode) :
  exploreBranches rawUserMessage ids = Some (Ok branches) →
  Some leaf ∈ branches.*1 → stopsAt leaf.
Proof.
  intros Hbs%exploreBranches_Ok ([l chunks] & Hl & Hin)%list_elem_of_fmap.
  simpl in Hl; subst l.
  apply list_elem_of_lookup in Hin as [i Hi].
  destruct (Forall2_lookup_r _ _ _ _ _ Hbs Hi) as (cid & _ & Hb).
  by eapply exploreBranch_leaf_stop.
Qed.

Lemma stopsAt_count (leaf : RawNode) : stopsAt leaf → length (raw_childrenIds leaf) ≤ 1.
Proof. intros [->|(k & -> & _)]; simpl; lia. Qed.

Lemma stopsAt_child_human (leaf : RawNode) (k : string) (lc : RawNode) :
  stopsAt leaf → k ∈ raw_childrenIds leaf → raw_children leaf !! k = Some lc →
  isUserMessage lc = true.
Proof.
  intros [Hnil|(k' & Hids & Hk')] Hk Hlc.
  - rewrite Hnil in Hk. by apply elem_of_nil in Hk.
  - rewrite Hids in Hk. apply list_elem_of_singleton in Hk as ->.
    destruct Hk' as [Hnone|(h & Hh & Hu)]; congruence.
Qed.

Lemma messageChunks_Throw (m : RawNode) (e : JsError) :
  messageChunks m = Throw e → branchPhaseError e.
Proof.
  unfold messageChunks, branchPhaseError. destruct (raw_content m) as [c|].
  - destruct (_ || _).
    + destruct (parts c); [done|]. intros [= <-]. by right; left.
    + destruct (bool_decide _); [done|]. intros [= <-]. right; right. by eexists.
  - intros [= <-]. by right; left.
Qed.

Lemma buildSingleAssistantMessage_Throw (chain : list RawNode) (e : JsError) :
  buildSingleAssistantMessage chain = Throw e ↔
  ∃ before m after,
    chain = before ++ m :: after ∧ Forall recognised before ∧ messageChunks m = Throw e.
Proof.
  induction chain as [|m l IH].
  - split; [done|]. intros (before & m & after & Hnil & _). by destruct before.
  - rewrite buildSingleAssistantMessage_cons. split.
    + destruct (messageChunks m) as [cs|e'] eqn:Hm; simpl.
      * destruct (buildSingleAssistantMessage l) as [cs'|e'] eqn:Hl; simpl; [done|].
        intros [= ->]. destruct (proj1 IH eq_refl) as (before & m' & after & -> & Hall & Hm').
        exists (m :: before), m', after. split; [done|]. split; [|done].
        constructor; [by exists cs | done].
      * intros [= ->]. exists [], m, l. by repeat split.
    + intros (before & m' & after & Hchain & Hall & Hm').
      destruct before as [|m0 before]; simplify_eq/=.
      * by rewrite Hm'.
      * apply Forall_cons in Hall as [[cs Hcs] Hall]. rewrite Hcs. simpl.
        rewrite (proj2 IH) by (by exists before, m', after). done.
Qed.

Lemma exploreBranch_Throw (rawUserMessage : RawNode) (childId : string) (e : JsError) :
  exploreBranch rawUserMessage childId = Some (Throw e) → branchPhaseError e.
Proof.
  unfold exploreBranch.
  destruct (validateAndExtractLinkedList rawUserMessage childId) as [[chain|e']|] eqn:Hv;
    [| |done].
  - destruct (buildSingleAssistantMessage chain) as [cs|e'] eqn:Hb; simpl; [done|].
    intros [= ->]. apply buildSingleAssistantMessage_Throw in Hb as (? & m & ? & _ & _ & Hm).
    by eapply messageChunks_Throw.
  - intros [= ->]. apply walk_sound in Hv as [-> _]. by left.
Qed.

(** The shape of every instance the constructor returns. *)
Lemma newMergedMessage_structure (rawUserMessage : RawNode)
    (m : MergedMessage) (log : list LogEntry) :
  newMergedMessage rawUserMessage = Some (m, log) →
  message_id m = raw_id rawUserMessage ∧ childrenIds m = None ∧ author m = None ∧
  ((∃ e, exploreBranches rawUserMessage (raw_childrenIds rawUserMessage) = Some (Throw e) ∧
         branchPhaseError e ∧
         m = withoutBranches rawUserMessage ∧ log = [FailedAssistantMessages e]) ∨
   (∃ branches (built : list (RawNode * (MergedMessage * list LogEntry))) thrown,
      exploreBranches rawUserMessage (raw_childrenIds rawUserMessage) = Some (Ok branches) ∧
      userMessageChunks m = Some (loadUserMessage rawUserMessage) ∧
      assistantBranches m = Some branches.*2 ∧
      children m = Some (arrayProps (fst ∘ snd <$> built)) ∧
      log = concat (snd ∘ snd <$> built) ++ thrownEntry thrown ∧
      Forall (λ b, nextTurnOf branches.*1 b.1 ∧ newMergedMessage b.1 = Some b.2) built ∧
      length built ≤ length (raw_childrenIds rawUserMessage) ∧
      (∀ e, thrown = Some e → e = TypeError))).
Proof.
  rewrite newMergedMessage_unfold.
  destruct (exploreBranches _ _) as [[branches|e]|] eqn:Hbs; [| |done].
  - destruct (aggregateLeaves _ _ _ _) as [[[kids log1] thrown]|] eqn:Hagg; [|done].
    intros [= <- <-]. do 3 (split; [done|]). right.
    apply aggregateLeaves_built in Hagg as (built & Hall & -> & -> & Hlen & Hthrown).
    exists branches, built, thrown. do 6 (split; [done|]). split.
    + etrans; [exact Hlen|].
      rewrite (Forall2_length _ _ _ (proj1 (exploreBranches_Ok _ _ _) Hbs)).
      rewrite <-(length_fmap fst branches).
      assert (Hstop : ∀ leaf, Some leaf ∈ branches.*1 → stopsAt leaf)
        by (intros leaf; by eapply exploreBranches_leaf_stop).
      clear -Hstop. induction (branches.*1) as [|[leaf|] l IH]; csimpl; [done| |].
      * pose proof (stopsAt_count leaf (Hstop leaf ltac:(by left))).
        assert (sum_list (leafChildCount <$> l) ≤ length l)
          by (apply IH; intros leaf' ?; apply Hstop; by right).
        apply (Nat.add_le_mono _ 1 _ (length l)); done.
      * etrans; [apply IH; intros leaf' ?; apply Hstop; by right|]. apply Nat.le_succ_diag_r.
    + intros e He. destruct (Hthrown e He) as [?|(_ & leaf & k & lc & Hleaf & Hk & Hlc & Hu)];
        [done|].
      pose proof (exploreBranches_leaf_stop _ _ _ _ Hbs Hleaf) as Hstop.
      rewrite (stopsAt_child_human _ _ _ Hstop Hk Hlc) in Hu. done.
  - intros [= <- <-]. do 3 (split; [done|]). left. exists e. split; [done|].
    split; [|done].
    apply exploreBranches_Throw in Hbs as (? & cid & ? & _ & _ & Hcid).
    by eapply exploreBranch_Throw.
Qed.

Lemma nextTurnOf_height (rawUserMessage : RawNode) (ids : list string)
    (branches : list (option RawNode * list ContentPart)) (h : RawNode) :
  exploreBranches rawUserMessage ids = Some (Ok branches) →
  nextTurnOf branches.*1 h → height h < height rawUserMessage.
Proof.
  intros Hbs (leaf & k & Hleaf & _ & Hh & _).
  apply (exploreBranches_leaf_height _ _ _ _ Hbs) in Hleaf.
  apply height_child in Hh. lia.
Qed.

Lemma newMergedMessage_ArrayTree (rawUserMessage : RawNode)
    (m : MergedMessage) (log : list LogEntry) :
  newMergedMessage rawUserMessage = Some (m, log) → ArrayTree m.
Proof.
  remember (height rawUserMessage) as N eqn:HN.
  assert (Hle : height rawUserMessage ≤ N) by lia. clear HN.
  revert rawUserMessage m log Hle.
  induction N as [|N IH]; intros raw m log Hle Hnew.
  { destruct raw; simpl in Hle; lia. }
  destruct (newMergedMessage_structure _ _ _ Hnew)
    as (_ & Hids & Hauthor & [(e & _ & _ & -> & _)|
        (branches & built & thrown & Hbs & _ & _ & Hkids & _ & Hall & _)]).
  - by apply array_tree_unset.
  - eapply array_tree_array; [done..|].
    intros c (b & -> & Hb)%list_elem_of_fmap.
    destruct (proj1 (Forall_forall _ _) Hall _ Hb) as [Hnext Hnewb].
    pose proof (nextTurnOf_height _ _ _ _ Hbs Hnext).
    destruct b as [h [c l]]; simpl in *. eapply (IH h); [lia|done].
Qed.

(** ** Empty chains *)

(** C10, as stated: whenever an outgoing child id names no node or names a
    human turn, the leaf aggregation would run and fail on the undefined
    leaf, a [TypeError] being logged last with [children] assigned.  It fails
    on a turn whose first id names no node and whose second branch forks: the
    map throws the linearity error, which is what is logged, and the
    aggregation never starts. *)
Lemma newMergedMessage_empty_chain_counterexample :
  ¬ (∀ (rawUserMessage : RawNode) (i : nat) (childId : string),
       raw_childrenIds rawUserMessage !! i = Some childId →
       (raw_children rawUserMessage !! childId = None ∨
        ∃ h, raw_children rawUserMessage !! childId = Some h ∧ isUserMessage h = true) →
       ∃ m log,
         newMergedMessage rawUserMessage
           = Some (m, log ++ [FailedAssistantMessages TypeError]) ∧
         is_Some (children m)).
Proof.
  intros H.
  destruct (H gapThenFork 0 "gone") as (m & log & Hnew & [kids Hkids]).
  - reflexivity.
  - left. vm_compute. reflexivity.
  - vm_compute in Hnew. injection Hnew as <- _. discriminate Hkids.
Qed.

(** C10, amended: when an outgoing child id of a human turn names no node,
    or names a human turn, the chain of that branch is empty and its noted
    leaf is [undefined]; the constructor returns normally with a failure of
    the branch phase as its last log entry.  If a branch throws during the
    map, that error is the one logged and neither [assistantBranches] nor
    [children] is assigned.  Otherwise [assistantBranches] is assigned and
    the leaf aggregation fails with a [TypeError], on the undefined leaf or
    on an earlier leaf already; [children] and the log are those produced by
    the leaves before that branch alone, so no later leaf is looked at. *)
Theorem newMergedMessage_empty_chain
    (rawUserMessage : RawNode) (i : nat) (childId : string) :
  raw_childrenIds rawUserMessage !! i = Some childId →
  (raw_children rawUserMessage !! childId = None ∨
   ∃ h, raw_children rawUserMessage !! childId = Some h ∧ isUserMessage h = true) →
  validateAndExtractLinkedList rawUserMessage childId = Some (Ok []) ∧
  exploreBranch rawUserMessage childId = Some (Ok (None, [])) ∧
  ∃ m log e,
    newMergedMessage rawUserMessage = Some (m, log ++ [FailedAssistantMessages e]) ∧
    (∀ e',
       exploreBranches rawUserMessage (raw_childrenIds rawUserMessage)
         = Some (Throw e') →
       m = withoutBranches rawUserMessage ∧ log = [] ∧ e = e') ∧
    (∀ branches,
       exploreBranches rawUserMessage (raw_childrenIds rawUserMessage)
         = Some (Ok branches) →
       branches.*1 !! i = Some None ∧
       assistantBranches m = Some branches.*2 ∧
       e = TypeError ∧
       ∃ kids thrown,
         aggregateLeaves newMergedMessage (take i branches.*1) [] []
           = Some (kids, log, thrown) ∧
         children m = Some (arrayProps kids) ∧
         (∀ e0, thrown = Some e0 → e0 = TypeError)).
Proof.
  intros Hi Hchild.
  assert (Hv : validateAndExtractLinkedList rawUserMessage childId = Some (Ok [])).
  { apply validateAndExtractLinkedList_Ok.
    destruct Hchild as [->|(h & -> & Hh)]; by constructor. }
  assert (Hb : exploreBranch rawUserMessage childId = Some (Ok (None, []))).
  { unfold exploreBranch. by rewrite Hv. }
  split; [done|]. split; [done|].
  rewrite newMergedMessage_unfold.
  destruct (exploreBranches_total rawUserMessage (raw_childrenIds rawUserMessage))
    as [[branches|e] Hbs]; rewrite Hbs.
  - pose proof (proj1 (exploreBranches_Ok _ _ _) Hbs) as Hall.
    destruct (Forall2_lookup_l _ _ _ _ _ Hall Hi) as (b & Hbi & Hb').
    rewrite Hb in Hb'. injection Hb' as <-.
    assert (Hleaf : branches.*1 !! i = Some None) by (by rewrite list_lookup_fmap, Hbi).
    rewrite <-(take_drop_middle _ _ _ Hleaf), aggregateLeaves_app.
    destruct (aggregateLeaves newMergedMessage (take i branches.*1) [] [])
      as [[[kids log] thrown]|] eqn:Hagg.
    + assert (Hthrown : ∀ e0, thrown = Some e0 → e0 = TypeError).
      { intros e0 He0.
        destruct (aggregateLeaves_built _ _ _ _ _ _ _ Hagg) as (_ & _ & _ & _ & _ & Hcases).
        destruct (Hcases e0 He0) as [?|(_ & leaf & k & lc & Hin & Hk & Hlc & Hu)]; [done|].
        assert (Hin' : Some leaf ∈ branches.*1).
        { rewrite <-(take_drop i branches.*1). apply elem_of_app. by left. }
        pose proof (exploreBranches_leaf_stop _ _ _ _ Hbs Hin') as Hstop.
        rewrite (stopsAt_child_human _ _ _ Hstop Hk Hlc) in Hu. done. }
      exists (mkMergedMessage (raw_id rawUserMessage)
                (Some (loadUserMessage rawUserMessage)) (Some branches.*2)
                (Some (arrayProps kids)) None None None None None), log, TypeError.
      split.
      { destruct thrown as [e0|]; [|done]. by rewrite (Hthrown e0 eq_refl). }
      split; [done|]. intros ? [= <-]. do 3 (split; [done|]).
      by exists kids, thrown.
    + destruct (aggregateLeaves_total newMergedMessage (take i branches.*1) [] [])
        as [r Hr]; [|congruence].
      intros. apply newMergedMessage_total.
  - exists (withoutBranches rawUserMessage), [], e. split; [done|].
    split; [by intros ? [= <-] | done].
Qed.

(** ** Find by id *)

Lemma findInChildren_outcome (find : MergedMessage → option (Result (option MergedMessage)))
    (id : string) (l : list MergedMessage) (r : Result (option MergedMessage)) :
  (∀ c r', c ∈ l → find c = Some r' → findOutcome id c r') →
  findInChildren find l = Some r →
  match r with
  | Ok (Some n) => ∃ c, c ∈ l ∧ Inside c n ∧ message_id n = id
  | Ok None => ∀ c n, c ∈ l → Inside c n → message_id n ≠ id
  | Throw e =>
      e = TypeError ∧
      ∃ c n, c ∈ l ∧ Inside c n ∧ children n = None ∧ message_id n ≠ id
  end.
Proof.
  induction l as [|c l IH]; intros Hfind; simpl.
  - intros [= <-]. by intros c n ?%elem_of_nil.
  - destruct (find c) as [[[n|]|e]|] eqn:Hc; [| | |done].
    + intros [= <-]. destruct (Hfind c _ ltac:(by left) Hc) as [? ?].
      exists c. by repeat split; [left|..].
    + intros Hl. pose proof (Hfind c _ ltac:(by left) Hc) as Hnone. simpl in Hnone.
      assert (IH' := IH (λ c' r' Hin, Hfind c' r' ltac:(by right)) Hl).
      destruct r as [[n|]|e'].
      * destruct IH' as (c' & ? & ? & ?). exists c'. by repeat split; [right|..].
      * intros c' n [->|Hin]%elem_of_cons; [apply Hnone | by apply IH'].
      * destruct IH' as (-> & c' & n & ? & ? & ? & ?). split; [done|].
        exists c', n. by repeat split; [right|..].
    + intros [= <-]. destruct (Hfind c _ ltac:(by left) Hc) as (-> & n & ? & ? & ?).
      split; [done|]. exists c, n. by repeat split; [left|..].
Qed.

Lemma findFrom_outcome (fuel : nat) (id : string) (this : MergedMessage)
    (r : Result (option MergedMessage)) :
  findFrom fuel id this = Some r → findOutcome id this r.
Proof.
  revert this r. induction fuel as [|fuel IH]; intros this r; simpl;
    case_bool_decide as Hid;
    try (intros [= <-]; split; [constructor | done]);
    destruct (children this) as [props|] eqn:Hprops;
    try done;
    try (intros [= <-]; split; [done|]; exists this; by repeat split; [constructor|..]).
  intros Hl. apply (findInChildren_outcome _ id) in Hl; [|by intros c r' _; apply IH].
  destruct r as [[n|]|e]; simpl.
  - destruct Hl as (c & Hc & Hin & Hn). split; [|done]. by eapply inside_element.
  - intros n Hn. inversion Hn as [|? props' c n' Hprops' Hc Hin]; simplify_eq; [done|].
    by eapply Hl.
  - destruct Hl as (-> & c & n & Hc & Hin & Hnone & Hne). split; [done|].
    exists n. split; [by eapply inside_element | done].
Qed.

Lemma arrayElements_height (this : MergedMessage) (props : gmap string MergedMessage)
    (c : MergedMessage) :
  children this = Some props → c ∈ arrayElements props →
  messageHeight c < messageHeight this.
Proof.
  intros Hprops (k & Hk)%arrayElementsFrom_lookup.
  assert (Hle : messageHeight this ≤ S (messageHeight this - 1)) by lia.
  pose proof (proj1 (messageHeight_le this _) Hle props k c Hprops Hk).
  destruct this; simpl in *; lia.
Qed.

Lemma findInChildren_total (find : MergedMessage → option (Result (option MergedMessage)))
    (l : list MergedMessage) :
  (∀ c, c ∈ l → is_Some (find c)) → is_Some (findInChildren find l).
Proof.
  induction l as [|c l IH]; intros Hfind; simpl; [by eexists|].
  destruct (Hfind c) as [[[n|]|e] ->]; [by left|by eexists| |by eexists].
  apply IH. intros c' ?. apply Hfind. by right.
Qed.

Lemma findFrom_total (fuel : nat) (id : string) (this : MergedMessage) :
  messageHeight this ≤ fuel → is_Some (findFrom fuel id this).
Proof.
  revert this. induction fuel as [|fuel IH]; intros this Hh.
  { destruct this; simpl in Hh; lia. }
  simpl. case_bool_decide; [by eexists|].
  destruct (children this) as [props|] eqn:Hprops; [|by eexists].
  apply findInChildren_total. intros c Hc. apply IH.
  pose proof (arrayElements_height _ _ _ Hprops Hc). lia.
Qed.

(** X1: on the tree built from any raw turn, [findMessageById] returns; a
    node it returns is a node of the tree with the id searched; [null] means
    that no node of the tree has that id; and the only error is a
    [TypeError], raised when the tree holds a node with another id whose
    [children] was never assigned. *)
Theorem findMessageById_constructed (rawUserMessage : RawNode)
    (this : MergedMessage) (log : list LogEntry) (id : string) :
  newMergedMessage rawUserMessage = Some (this, log) →
  ∃ r, findMessageById id this = Some r ∧ findOutcome id this r.
Proof.
  intros _. destruct (findFrom_total (messageHeight this) id this) as [r Hr]; [done|].
  exists r. split; [done|]. by eapply findFrom_outcome.
Qed.

(** X2: when the branch phase of the root turn throws, searching the built
    node for any id but its own throws a [TypeError] instead of answering
    [null]. *)
Theorem findMessageById_after_branch_failure (rawUserMessage : RawNode)
    (this : MergedMessage) (log : list LogEntry) (e : JsError) (id : string) :
  exploreBranches rawUserMessage (raw_childrenIds rawUserMessage) = Some (Throw e) →
  newMergedMessage rawUserMessage = Some (this, log) →
  id ≠ raw_id rawUserMessage →
  findMessageById id this = Some (Throw TypeError) ∧
  findMessageById (raw_id rawUserMessage) this = Some (Ok (Some this)).
Proof.
  intros Hbs Hnew Hid. rewrite newMergedMessage_unfold, Hbs in Hnew.
  injection Hnew as <- <-. unfold findMessageById. simpl.
  rewrite bool_decide_eq_false_2 by done. by rewrite bool_decide_eq_true_2.
Qed.

(** ** Trees built without a log entry *)

Lemma concat_nil_inv {A} (ls : list (list A)) (l : list A) :
  concat ls = [] → l ∈ ls → l = [].
Proof.
  induction ls as [|l' ls IH]; simpl; [by intros _ ?%elem_of_nil|].
  intros [-> Hnil]%app_eq_nil [->|Hin]%elem_of_cons; [done | by apply IH].
Qed.

Lemma newMergedMessage_clean (rawUserMessage : RawNode) (this n : MergedMessage) :
  newMergedMessage rawUserMessage = Some (this, []) → Inside this n → fullyBuilt n.
Proof.
  remember (height rawUserMessage) as N eqn:HN.
  assert (Hle : height rawUserMessage ≤ N) by lia. clear HN.
  revert rawUserMessage this n Hle.
  induction N as [|N IH]; intros raw this n Hle Hnew Hin.
  { destruct raw; simpl in Hle; lia. }
  destruct (newMergedMessage_structure _ _ _ Hnew)
    as (_ & _ & _ & [(e & _ & _ & _ & ?)|
        (branches & built & thrown & Hbs & Humc & Hab & Hkids & Hlog & Hall & _)]);
    [done|].
  symmetry in Hlog. apply app_eq_nil in Hlog as [Hlogs _].
  inversion Hin as [|? props c n' Hprops Hc Hin']; simplify_eq.
  - unfold fullyBuilt. by rewrite Humc, Hab, Hkids.
  - rewrite arrayElements_arrayProps in Hc.
    apply list_elem_of_fmap in Hc as (b & -> & Hb).
    destruct (proj1 (Forall_forall _ _) Hall _ Hb) as [Hnext Hnewb].
    pose proof (nextTurnOf_height _ _ _ _ Hbs Hnext).
    assert (Hl : (snd ∘ snd) b = []).
    { eapply concat_nil_inv; [exact Hlogs|]. apply list_elem_of_fmap. by exists b. }
    destruct b as [h [c l]]; simpl in *. subst l.
    eapply (IH h); [lia|done..].
Qed.

(** X3: a tree built without any log entry is complete: every node of it
    has [userMessageChunks], [assistantBranches] and [children] assigned, and
    then a search never throws: it returns a node of the tree with the id
    searched, or [null] when there is none. *)
Theorem newMergedMessage_empty_log (rawUserMessage : RawNode) (this : MergedMessage) :
  newMergedMessage rawUserMessage = Some (this, []) →
  (∀ n, Inside this n → fullyBuilt n) ∧
  ∀ id, ∃ r,
    findMessageById id this = Some (Ok r) ∧
    match r with
    | Some n => Inside this n ∧ message_id n = id
    | None => ∀ n, Inside this n → message_id n ≠ id
    end.
Proof.
  intros Hnew. split; [intros n; by eapply newMergedMessage_clean|].
  intros id. destruct (findFrom_total (messageHeight this) id this) as [r Hr]; [done|].
  pose proof (findFrom_outcome _ _ _ _ Hr) as Hout.
  destruct r as [r|e]; [by exists r|].
  destruct Hout as (_ & n & Hin & Hnone & _).
  destruct (newMergedMessage_clean _ _ _ Hnew Hin) as (_ & _ & [? Hsome]). congruence.
Qed.

(** ** What reaches the log, and what becomes a child *)

Lemma elem_of_concat_inv {A} (x : A) (ls : list (list A)) :
  x ∈ concat ls → ∃ l, x ∈ l ∧ l ∈ ls.
Proof.
  induction ls as [|l ls IH]; simpl; [by intros ?%elem_of_nil|].
  intros [Hx|Hx]%elem_of_app.
  - exists l. by split; [|left].
  - destruct (IH Hx) as (l' & ? & ?). exists l'. by split; [|right].
Qed.

Lemma newMergedMessage_log_errors (rawUserMessage : RawNode)
    (m : MergedMessage) (log : list LogEntry) (entry : LogEntry) :
  newMergedMessage rawUserMessage = Some (m, log) → entry ∈ log →
  ∃ e, entry = FailedAssistantMessages e ∧ branchPhaseError e.
Proof.
  remember (height rawUserMessage) as N eqn:HN.
  assert (Hle : height rawUserMessage ≤ N) by lia. clear HN.
  revert rawUserMessage m log Hle.
  induction N as [|N IH]; intros raw m log Hle Hnew Hentry.
  { destruct raw; simpl in Hle; lia. }
  destruct (newMergedMessage_structure _ _ _ Hnew)
    as (_ & _ & _ & [(e & _ & He & _ & ->)|
        (branches & built & thrown & Hbs & _ & _ & _ & -> & Hall & _ & Hthrown)]).
  - apply list_elem_of_singleton in Hentry as ->. by exists e.
  - apply elem_of_app in Hentry as [Hentry|Hentry].
    + apply elem_of_concat_inv in Hentry as (l & Hentry & (b & -> & Hb)%list_elem_of_fmap).
      destruct (proj1 (Forall_forall _ _) Hall _ Hb) as [Hnext Hnewb].
      pose proof (nextTurnOf_height _ _ _ _ Hbs Hnext).
      destruct b as [h [c l]]; simpl in *. eapply (IH h); [lia|done..].
    + destruct thrown as [e|]; [|by apply elem_of_nil in Hentry].
      apply list_elem_of_singleton in Hentry as ->. exists e. split; [done|].
      right; left. by apply Hthrown.
Qed.

(** X4: every entry the constructor logs, at any depth, reports the
    linearity assertion, the unexpected-content-type error or a [TypeError];
    the assertion that leaf children are user messages is never raised,
    because the walk only ends a chain on a node whose single child, if any,
    is a human turn or is absent. *)
Theorem newMergedMessage_logged_errors (rawUserMessage : RawNode)
    (m : MergedMessage) (log : list LogEntry) :
  newMergedMessage rawUserMessage = Some (m, log) →
  (∀ entry, entry ∈ log → ∃ e, entry = FailedAssistantMessages e ∧ branchPhaseError e) ∧
  FailedAssistantMessages LeafChildNotUser ∉ log.
Proof.
  intros Hnew. split; [intros entry; by eapply newMergedMessage_log_errors|].
  intros Hin. destruct (newMergedMessage_log_errors _ _ _ _ Hnew Hin)
    as (e & [= <-] & [?|[?|[ct ?]]]); done.
Qed.

(** X5: when [children] is assigned it is an array with at most one element
    per outgoing branch, and each element is the instance built from a human
    turn that is the child of the last node of a branch, carrying that turn's
    id. *)
Theorem newMergedMessage_children (rawUserMessage : RawNode)
    (m : MergedMessage) (log : list LogEntry) (props : gmap string MergedMessage) :
  newMergedMessage rawUserMessage = Some (m, log) →
  children m = Some props →
  ∃ kids branches,
    exploreBranches rawUserMessage (raw_childrenIds rawUserMessage) = Some (Ok branches) ∧
    props = arrayProps kids ∧
    length kids ≤ length (raw_childrenIds rawUserMessage) ∧
    ∀ c, c ∈ kids →
      ∃ h l, nextTurnOf branches.*1 h ∧ newMergedMessage h = Some (c, l) ∧
             message_id c = raw_id h.
Proof.
  intros Hnew Hprops.
  destruct (newMergedMessage_structure _ _ _ Hnew)
    as (_ & _ & _ & [(e & _ & _ & -> & _)|
        (branches & built & thrown & Hbs & _ & _ & Hkids & _ & Hall & Hlen & _)]);
    [done|].
  exists (fst ∘ snd <$> built), branches. split; [done|].
  split; [congruence|]. split; [by rewrite length_fmap|].
  intros c (b & -> & Hb)%list_elem_of_fmap.
  destruct (proj1 (Forall_forall _ _) Hall _ Hb) as [Hnext Hnewb].
  destruct b as [h [c l]]; simpl in *. exists h, l. do 2 (split; [done|]).
  by destruct (newMergedMessage_structure _ _ _ Hnewb) as (? & _).
Qed.

(** ** The tree operations on a built tree *)

(** X6: on every instance the constructor returns, [deleteChildMessageById]
    (any id, any [recurse]), [traverseAndFlagMessagesToRemove] and
    [mergeSubsequentAssistantMessages] throw a [TypeError]: the constructor
    assigns neither [childrenIds] nor [author], which they read first. *)
Theorem constructed_operations_throw (rawUserMessage : RawNode)
    (this : MergedMessage) (log : list LogEntry) :
  newMergedMessage rawUserMessage = Some (this, log) →
  (∀ fuel id recurse,
     deleteChildMessageById fuel id recurse this = Some (Throw TypeError)) ∧
  (∀ isMessageHidden idsToRemove,
     traverseAndFlagMessagesToRemove isMessageHidden this idsToRemove
       = Some (Throw TypeError)) ∧
  (∀ fuel, mergeSubsequentAssistantMessages fuel this = Some (Throw TypeError)).
Proof.
  intros Hnew.
  destruct (newMergedMessage_structure _ _ _ Hnew) as (_ & Hids & Hauthor & _).
  split; [|split].
  - intros [|fuel] id recurse; simpl; by rewrite Hids.
  - intros hidden acc. unfold traverseAndFlagMessagesToRemove.
    destruct (messageHeight this); simpl; by rewrite Hids.
  - intros fuel. unfold mergeSubsequentAssistantMessages. by rewrite Hauthor.
Qed.

(** ** Hide-flag traversal *)

Lemma flagChildren_spec (isMessageHidden : MergedMessage → bool)
    (traverse : MergedMessage → list string → option (Result (list string)))
    (kids : gmap string MergedMessage) (l : list string) (idsToRemove : list string) :
  (∀ k, k ∈ l →
        ∃ c, kids !! k = Some c ∧
             ∀ acc, ∃ fl, traverse c acc = Some (Ok (acc ++ fl)) ∧
                          ∀ x, x ∈ fl ↔ flaggedBelow isMessageHidden c x) →
  ∃ fl,
    flagChildren isMessageHidden traverse l (Some kids) idsToRemove
      = Some (Ok (idsToRemove ++ fl)) ∧
    ∀ x, x ∈ fl ↔
         ∃ k c, k ∈ l ∧ kids !! k = Some c ∧
                (isMessageHidden c = true ∧ message_id c = x ∨
                 flaggedBelow isMessageHidden c x).
Proof.
  revert idsToRemove. induction l as [|k l IH]; intros acc Hl; simpl.
  - exists []. rewrite app_nil_r. split; [done|]. intros x. split.
    + by intros ?%elem_of_nil.
    + by intros (k & c & ?%elem_of_nil & _).
  - destruct (Hl k) as (c & Hc & Htraverse); [by left|]. rewrite Hc.
    set (own := if isMessageHidden c then [message_id c] else []).
    assert (Hown : (if isMessageHidden c then acc ++ [message_id c] else acc) = acc ++ own).
    { subst own. destruct (isMessageHidden c); [done | by rewrite app_nil_r]. }
    rewrite Hown. destruct (Htraverse (acc ++ own)) as (fl1 & -> & Hfl1).
    destruct (IH ((acc ++ own) ++ fl1)) as (fl2 & -> & Hfl2).
    { intros k' ?. apply Hl. by right. }
    exists (own ++ fl1 ++ fl2). split; [by rewrite !app_assoc|].
    intros x. rewrite !elem_of_app, Hfl1, Hfl2. split.
    + intros [Hx|[Hx|(k' & c' & ? & ? & ?)]].
      * exists k, c. split; [by left|]. split; [done|]. left.
        subst own. destruct (isMessageHidden c); [|by apply elem_of_nil in Hx].
        by apply list_elem_of_singleton in Hx as ->.
      * exists k, c. split; [by left|]. by split; [|right].
      * exists k', c'. by split; [right|].
    + intros (k' & c' & [->|Hin]%elem_of_cons & Hc' & Hx).
      * simplify_eq. destruct Hx as [[Hh <-]|Hx]; [|by right; left].
        left. subst own. rewrite Hh. by left.
      * right; right. by exists k', c'.
Qed.

Lemma flagFrom_spec (isMessageHidden : MergedMessage → bool) (fuel : nat)
    (this : MergedMessage) (idsToRemove : list string) :
  Paired this → messageHeight this ≤ fuel →
  ∃ fl,
    flagFrom isMessageHidden fuel this idsToRemove = Some (Ok (idsToRemove ++ fl)) ∧
    ∀ x, x ∈ fl ↔ flaggedBelow isMessageHidden this x.
Proof.
  revert this idsToRemove. induction fuel as [|fuel IH]; intros this acc Hp Hh.
  { destruct this; simpl in Hh; lia. }
  destruct Hp as [this ids kids Hids Hkids Hpair Hdeep]. simpl. rewrite Hids, Hkids.
  destruct (flagChildren_spec isMessageHidden (flagFrom isMessageHidden fuel) kids ids acc)
    as (fl & -> & Hfl).
  { intros k Hk. apply Hpair in Hk as [c Hc]. exists c. split; [done|].
    intros acc'. apply IH; [by eapply Hdeep|].
    assert (Hle : messageHeight this ≤ S fuel) by done.
    exact (proj1 (messageHeight_le this _) Hle kids k c Hkids Hc). }
  exists fl. split; [done|]. intros x. rewrite Hfl. split.
  - intros (k & c & Hk & Hc & [[Hh' <-]|(n & Hn & Hh' & <-)]).
    + exists c. split; [by eapply below_child|done].
    + exists n. split; [by eapply below_deeper|done].
  - intros (n & Hn & Hh' & <-).
    inversion Hn as [? ids' kids' k c Hids' Hkids' Hk Hc|
                     ? ids' kids' k c n' Hids' Hkids' Hk Hc Hbelow]; simplify_eq.
    + exists k, n. do 2 (split; [done|]). by left.
    + exists k, c. do 2 (split; [done|]). right. by exists n.
Qed.

(** X7: on a tree in which [childrenIds] and [children] are paired
    throughout, the traversal returns the collector it was given followed by
    new ids, and the new ids are exactly the ids of the hidden proper
    descendants of the node: the node itself is never flagged, and the
    children of a hidden node are still visited. *)
Theorem traverseAndFlagMessagesToRemove_spec (isMessageHidden : MergedMessage → bool)
    (this : MergedMessage) (idsToRemove : list string) :
  Paired this →
  ∃ flagged,
    traverseAndFlagMessagesToRemove isMessageHidden this idsToRemove
      = Some (Ok (idsToRemove ++ flagged)) ∧
    ∀ x, x ∈ flagged ↔
         ∃ n, Below this n ∧ isMessageHidden n = true ∧ message_id n = x.
Proof. intros Hp. by apply flagFrom_spec. Qed.

(** ** More on delete with promotion *)

Lemma setChildren_same (this : MergedMessage) :
  setChildren this (childrenIds this) (children this) = this.
Proof. by destruct this. Qed.

Lemma deleteInChildren_Throw (del : MergedMessage → option (Result MergedMessage))
    (ids : list string) (thisChildren : option (gmap string MergedMessage)) (e : JsError) :
  (∀ c e', del c = Some (Throw e') → e' = TypeError) →
  deleteInChildren del ids thisChildren = Some (Throw e) → e = TypeError.
Proof.
  intros Hdel. revert thisChildren.
  induction ids as [|k ids IH]; intros thisChildren; simpl; [done|].
  destruct (thisChildren ≫= (.!! k)) as [child|]; [|by intros [= <-]].
  destruct (del child) as [[child'|e']|] eqn:Hchild; [|intros [= <-]; by eapply Hdel|done].
  apply IH.
Qed.

Lemma deleteChildMessageById_Throw (fuel : nat) (id : string) (recurse : bool)
    (this : MergedMessage) (e : JsError) :
  deleteChildMessageById fuel id recurse this = Some (Throw e) → e = TypeError.
Proof.
  revert recurse this e.
  assert (Hbase : ∀ (this : MergedMessage) (ids : list string) (e : JsError),
    match children this ≫= (.!! id) with
    | None => Some (Throw TypeError)
    | Some child =>
        match childrenIds child with
        | None => Some (Throw TypeError)
        | Some childChildrenIds =>
            match promoteChildren (children child) childChildrenIds ids
                    (default ∅ (children this)) with
            | Throw e => Some (Throw e)
            | Ok (ids', kids') =>
                Some (Ok (setChildren this
                            (Some (filter (λ childId, childId ≠ id) ids'))
                            (Some (delete id kids'))))
            end
        end
    end = Some (Throw e) → e = TypeError).
  { intros this ids e. destruct (children this ≫= (.!! id)) as [child|]; [|by intros [= <-]].
    destruct (childrenIds child) as [cids|]; [|by intros [= <-]].
    destruct (promoteChildren_cases (children child) cids ids (default ∅ (children this)))
      as [-> | ->]; [by intros [= <-] | done]. }
  induction fuel as [|fuel IH]; intros recurse this e; simpl;
    (destruct (childrenIds this) as [ids|]; [|by intros [= <-]]);
    (case_bool_decide; [apply Hbase|]); destruct recurse; try done.
  destruct (deleteInChildren _ _ _) as [[kids'|e']|] eqn:Hin; [done| |done].
  intros [= <-]. eapply deleteInChildren_Throw; [|exact Hin]. intros c e''. apply IH.
Qed.

Lemma deleteInChildren_unchanged (del : MergedMessage → option (Result MergedMessage))
    (ids : list string) (kids : gmap string MergedMessage) :
  (∀ k, k ∈ ids → ∃ c, kids !! k = Some c ∧ del c = Some (Ok c)) →
  deleteInChildren del ids (Some kids) = Some (Ok (Some kids)).
Proof.
  induction ids as [|k ids IH]; intros Hids; simpl; [done|].
  destruct (Hids k) as (c & Hc & Hdel); [by left|]. rewrite Hc, Hdel.
  rewrite insert_id by done. apply IH. intros k' ?. apply Hids. by right.
Qed.

Lemma deleteChildMessageById_absent (fuel : nat) (id : string) (recurse : bool)
    (this : MergedMessage) :
  Paired this → ¬ Lists this id → messageHeight this ≤ fuel →
  deleteChildMessageById fuel id recurse this = Some (Ok this).
Proof.
  revert recurse this. induction fuel as [|fuel IH]; intros recurse this Hp Hno Hh.
  { destruct this; simpl in Hh; lia. }
  destruct Hp as [this ids kids Hids Hkids Hpair Hdeep]. simpl. rewrite Hids.
  rewrite bool_decide_eq_false_2 by (intros Hin; apply Hno; by eapply lists_here).
  destruct recurse; [|done]. rewrite Hkids.
  rewrite deleteInChildren_unchanged.
  - by rewrite <-Hids, <-Hkids, setChildren_same.
  - intros k Hk. apply Hpair in Hk as [c Hc]. exists c. split; [done|].
    apply IH; [by eapply Hdeep | intros Hl; apply Hno; by eapply lists_deeper |].
    assert (Hle : messageHeight this ≤ S fuel) by done.
    exact (proj1 (messageHeight_le this _) Hle kids k c Hkids Hc).
Qed.

(** X8: deleting, with or without recursion, an id that no node of a paired
    tree lists as a child returns the tree unchanged. *)
Theorem deleteChildMessageById_unlisted (id : string) (recurse : bool)
    (this : MergedMessage) :
  Paired this → ¬ Lists this id →
  deleteChildMessageById (messageHeight this) id recurse this = Some (Ok this).
Proof. intros Hp Hno. by apply deleteChildMessageById_absent. Qed.

Lemma deleteInChildren_dangling (del : MergedMessage → option (Result MergedMessage))
    (ids : list string) (thisChildren : option (gmap string MergedMessage))
    (k : string) (r : Result (option (gmap string MergedMessage))) :
  k ∈ ids → thisChildren ≫= (.!! k) = None →
  deleteInChildren del ids thisChildren = Some r → ∃ e, r = Throw e.
Proof.
  revert thisChildren. induction ids as [|k0 ids IH]; intros thisChildren Hk Hnone; simpl.
  { by apply elem_of_nil in Hk. }
  destruct (thisChildren ≫= (.!! k0)) as [child|] eqn:Hk0; [|intros [= <-]; by eexists].
  destruct (del child) as [[child'|e]|]; [|intros [= <-]; by eexists|done].
  apply elem_of_cons in Hk as [->|Hk]; [congruence|].
  apply IH; [done|]. destruct thisChildren as [kids|]; [|done]. simpl in *.
  rewrite lookup_insert_ne; [done|]. intros ->. congruence.
Qed.

(** X9: the only error [deleteChildMessageById] raises is a [TypeError]; and
    a recursive delete of an id that is not a direct child raises it when
    some listed child id has no entry in [children]. *)
Theorem deleteChildMessageById_errors (fuel : nat) (id : string) (this : MergedMessage) :
  (∀ recurse e,
     deleteChildMessageById fuel id recurse this = Some (Throw e) → e = TypeError) ∧
  (∀ ids k,
     childrenIds this = Some ids → id ∉ ids → k ∈ ids →
     children this ≫= (.!! k) = None → messageHeight this ≤ fuel →
     deleteChildMessageById fuel id true this = Some (Throw TypeError)).
Proof.
  split; [intros recurse e; apply deleteChildMessageById_Throw|].
  intros ids k Hids Hid Hk Hnone Hh.
  destruct (deleteChildMessageById_height fuel id true this Hh) as (r & Hr & _).
  destruct r as [this'|e]; [|by rewrite Hr, (deleteChildMessageById_Throw _ _ _ _ _ Hr)].
  exfalso. destruct fuel as [|fuel]; simpl in Hr; rewrite Hids in Hr;
    rewrite bool_decide_eq_false_2 in Hr by done; [done|].
  destruct (deleteInChildren _ _ _) as [[kids'|e]|] eqn:Hin; [|done..].
  by destruct (deleteInChildren_dangling _ _ _ _ _ Hk Hnone Hin).
Qed.

Lemma deleteInChildren_paired (del : MergedMessage → option (Result MergedMessage))
    (n : nat) (ids : list string) (kids : gmap string MergedMessage) :
  (∀ c, Paired c → messageHeight c ≤ n →
        ∃ c', del c = Some (Ok c') ∧ Paired c' ∧ messageHeight c' ≤ n) →
  (∀ k, k ∈ ids → is_Some (kids !! k)) →
  (∀ k c, kids !! k = Some c → Paired c ∧ messageHeight c ≤ n) →
  ∃ kids',
    deleteInChildren del ids (Some kids) = Some (Ok (Some kids')) ∧
    (∀ k, is_Some (kids' !! k) ↔ is_Some (kids !! k)) ∧
    (∀ k c, kids' !! k = Some c → Paired c ∧ messageHeight c ≤ n).
Proof.
  intros Hdel. revert kids. induction ids as [|k0 ids IH]; intros kids Hids Hall; simpl.
  { by exists kids. }
  destruct (Hids k0) as [child Hchild]; [by left|]. rewrite Hchild.
  destruct (Hall _ _ Hchild) as [Hp Hh].
  destruct (Hdel child Hp Hh) as (child' & -> & Hp' & Hh').
  destruct (IH (<[k0:=child']> kids)) as (kids' & -> & Hdom & Hall').
  - intros k Hk. rewrite lookup_insert. case_decide; [by eexists|]. apply Hids. by right.
  - intros k c. rewrite lookup_insert. case_decide; [by intros [= <-]|]. apply Hall.
  - exists kids'. split; [done|]. split; [|done].
    intros k. rewrite Hdom, lookup_insert. case_decide; [|done].
    subst k. split; [by rewrite Hchild | by eexists].
Qed.

Lemma deleteChildMessageById_paired (fuel : nat) (id : string) (recurse : bool)
    (this : MergedMessage) :
  Paired this → messageHeight this ≤ fuel →
  ∃ this', deleteChildMessageById fuel id recurse this = Some (Ok this') ∧ Paired this'.
Proof.
  revert recurse this. induction fuel as [|fuel IH]; intros recurse this Hp Hh.
  { destruct this; simpl in Hh; lia. }
  pose proof Hp as Hp0.
  destruct Hp as [this ids kids Hids Hkids Hpair Hdeep].
  destruct (decide (id ∈ ids)) as [Hin|Hnin].
  - destruct (proj1 (Hpair id) Hin) as [child Hchild].
    destruct (Hdeep _ _ Hchild) as [child cids ckids Hcids Hckids Hcpair Hcdeep].
    eexists. split.
    { by eapply deleteChildMessageById_direct. }
    rewrite Hckids. simpl.
    eapply paired; [done..| |].
    + intros k. rewrite list_elem_of_filter, elem_of_app.
      destruct (decide (k = id)) as [->|Hne].
      * rewrite lookup_delete_eq. split; [by intros [? _] | by intros [? ?]].
      * rewrite lookup_delete_ne, lookup_promoted by done.
        destruct (decide (k ∈ cids)) as [Hk|Hk].
        -- rewrite <-Hcpair. tauto.
        -- rewrite <-Hpair. tauto.
    + intros k c. destruct (decide (k = id)) as [->|Hne]; [by rewrite lookup_delete_eq|].
      rewrite lookup_delete_ne, lookup_promoted by done. case_decide.
      * apply Hcdeep.
      * apply Hdeep.
  - simpl. rewrite Hids, bool_decide_eq_false_2 by done.
    destruct recurse; [|by exists this].
    rewrite Hkids.
    destruct (deleteInChildren_paired (deleteChildMessageById fuel id true) fuel ids kids)
      as (kids' & -> & Hdom & Hall).
    + intros c Hc Hch. destruct (IH true c Hc Hch) as (c' & Hdel & Hc').
      exists c'. do 2 (split; [done|]).
      destruct (deleteChildMessageById_height fuel id true c Hch) as (r & Hr & Hrh).
      rewrite Hdel in Hr. injection Hr as <-. lia.
    + intros k Hk. by apply Hpair.
    + intros k c Hc. split; [by eapply Hdeep|].
      assert (Hle : messageHeight this ≤ S fuel) by done.
      exact (proj1 (messageHeight_le this _) Hle kids k c Hkids Hc).
    + eexists. split; [done|].
      eapply paired; [done..| |].
      * intros k. by rewrite Hdom.
      * intros k c Hc. by apply (Hall k c).
Qed.

(** X10: on a tree in which [childrenIds] and [children] are paired
    throughout, [deleteChildMessageById] never throws, whatever the id and
    [recurse], and the tree it leaves is again paired throughout. *)
Theorem deleteChildMessageById_keeps_pairing (id : string) (recurse : bool)
    (this : MergedMessage) :
  Paired this →
  ∃ this',
    deleteChildMessageById (messageHeight this) id recurse this = Some (Ok this') ∧
    Paired this'.
Proof. intros Hp. by apply deleteChildMessageById_paired. Qed.

Lemma deleteInChildren_single (del : MergedMessage → option (Result MergedMessage))
    (ids : list string) (kids : gmap string MergedMessage)
    (k : string) (c c' : MergedMessage) :
  NoDup ids → k ∈ ids → kids !! k = Some c → del c = Some (Ok c') →
  (∀ k' c'', k' ∈ ids → k' ≠ k → kids !! k' = Some c'' → del c'' = Some (Ok c'')) →
  (∀ k', k' ∈ ids → is_Some (kids !! k')) →
  deleteInChildren del ids (Some kids) = Some (Ok (Some (<[k:=c']> kids))).
Proof.
  intros Hnd. revert kids. induction Hnd as [|k0 ids Hk0 Hnd IH];
    intros kids Hk Hc Hdel Hothers Hentries.
  { by apply elem_of_nil in Hk. }
  simpl. destruct (decide (k0 = k)) as [->|Hne].
  - rewrite Hc, Hdel. apply deleteInChildren_unchanged.
    intros k' Hk'. assert (k' ≠ k) by (by intros ->).
    destruct (Hentries k') as [c'' Hc'']; [by right|].
    exists c''. rewrite lookup_insert_ne by done. split; [done|].
    by apply (Hothers k'); [right|..].
  - destruct (Hentries k0) as [c0 Hc0]; [by left|]. rewrite Hc0.
    rewrite (Hothers k0 c0) by (done || by left). rewrite insert_id by done.
    apply IH; try done.
    + by apply elem_of_cons in Hk as [->|Hk].
    + intros k' c'' ?. apply Hothers. by right.
    + intros k' ?. apply Hentries. by right.
Qed.

(** X11: a recursive delete of an id [X] that is listed two levels down, by
    the child stored under [k] and by no other subtree, rewrites that child
    exactly as a direct delete of [X] on it would, and leaves [childrenIds]
    and every other entry of [children] as they were. *)
Theorem deleteChildMessageById_two_levels_down (fuel : nat) (X k : string)
    (this c : MergedMessage) (ids cids : list string) (kids : gmap string MergedMessage) :
  Paired this → messageHeight this ≤ fuel →
  childrenIds this = Some ids → children this = Some kids →
  NoDup ids → X ∉ ids →
  kids !! k = Some c → childrenIds c = Some cids → X ∈ cids →
  (∀ k' c', k' ≠ k → kids !! k' = Some c' → ¬ Lists c' X) →
  ∃ c',
    deleteChildMessageById 0 X false c = Some (Ok c') ∧
    (X ∉ default [] (childrenIds c')) ∧
    deleteChildMessageById fuel X true this =
      Some (Ok (setChildren this (Some ids) (Some (<[k:=c']> kids)))).
Proof.
  intros Hp Hh Hids Hkids Hnd HX Hc Hcids HXc Hothers.
  destruct Hp as [this ids0 kids0 Hids0 Hkids0 Hpair Hdeep].
  rewrite Hids in Hids0. injection Hids0 as <-.
  rewrite Hkids in Hkids0. injection Hkids0 as <-.
  destruct (Hdeep _ _ Hc) as [c cids0 ckids Hcids0 Hckids Hcpair Hcdeep].
  rewrite Hcids in Hcids0. injection Hcids0 as <-.
  destruct (proj1 (Hcpair X) HXc) as [g Hg].
  destruct (Hcdeep _ _ Hg) as [g gids gkids Hgids Hgkids _ _].
  set (c' := setChildren c
               (Some (filter (λ x, x ≠ X) (cids ++ gids)))
               (Some (delete X (promoted (default ∅ (children g)) gids ckids)))).
  assert (Hdirect : ∀ fuel' recurse,
            deleteChildMessageById fuel' X recurse c = Some (Ok c')).
  { intros fuel' recurse. by eapply deleteChildMessageById_direct. }
  exists c'. split; [apply Hdirect|]. split.
  { simpl. by intros [? _]%list_elem_of_filter. }
  destruct fuel as [|fuel]; [destruct this; simpl in Hh; lia|].
  simpl. rewrite Hids, bool_decide_eq_false_2, Hkids by done.
  rewrite (deleteInChildren_single _ ids kids k c c' Hnd); try done.
  - by apply Hpair.
  - intros k' c'' Hk' Hne Hc''. apply deleteChildMessageById_absent.
    + by eapply Hdeep.
    + by eapply Hothers.
    + assert (Hle : messageHeight this ≤ S fuel) by done.
      exact (proj1 (messageHeight_le this _) Hle kids k' c'' Hkids Hc'').
  - intros k' ?. by apply Hpair.
Qed.

(** X12: deleting the same id a second time without recursion changes
    nothing: after a first call that returned, the id is no direct child any
    more. *)
Theorem deleteChildMessageById_again (fuel fuel' : nat) (id : string)
    (this this' : MergedMessage) :
  deleteChildMessageById fuel id false this = Some (Ok this') →
  (id ∉ default [] (childrenIds this')) ∧
  deleteChildMessageById fuel' id false this' = Some (Ok this').
Proof.
  intros Hdel.
  assert (Hstep : ∀ f m, deleteChildMessageById f id false m =
    match childrenIds m with
    | None => Some (Throw TypeError)
    | Some ids =>
        if bool_decide (id ∈ ids) then
          match children m ≫= (.!! id) with
          | None => Some (Throw TypeError)
          | Some child =>
              match childrenIds child with
              | None => Some (Throw TypeError)
              | Some childChildrenIds =>
                  match promoteChildren (children child) childChildrenIds ids
                          (default ∅ (children m)) with
                  | Throw e => Some (Throw e)
                  | Ok (ids', kids') =>
                      Some (Ok (setChildren m
                                  (Some (filter (λ childId, childId ≠ id) ids'))
                                  (Some (delete id kids'))))
                  end
              end
          end
        else Some (Ok m)
    end) by (by intros [|f] m).
  rewrite Hstep in Hdel. rewrite Hstep.
  destruct (childrenIds this) as [ids|] eqn:Hids; [|done].
  case_bool_decide as Hin.
  - destruct (children this ≫= (.!! id)) as [child|]; [|done].
    destruct (childrenIds child) as [cids|]; [|done].
    destruct (promoteChildren _ _ _ _) as [[ids' kids']|e]; [|done].
    injection Hdel as <-. simpl.
    assert (Hnot : id ∉ filter (λ childId, childId ≠ id) ids')
      by (by intros [? _]%list_elem_of_filter).
    split; [done|]. by rewrite bool_decide_eq_false_2.
  - injection Hdel as <-. rewrite Hids. simpl. split; [done|].
    by rewrite bool_decide_eq_false_2.
Qed.

(** ** Conversion of a whole branch *)

Lemma recognised_convertible (m : RawNode) : recognised m ↔ convertible m.
Proof.
  unfold recognised, convertible, messageChunks. split.
  - intros [cs Hcs]. destruct (raw_content m) as [c|]; [|done]. exists c. split; [done|].
    destruct (bool_decide (content_type c = "text") ||
              bool_decide (content_type c = "multimodal_text")) eqn:Htext.
    + left. split.
      * apply orb_true_iff in Htext as [?%bool_decide_eq_true|?%bool_decide_eq_true]; auto.
      * destruct (parts c); [by eexists | done].
    + right. by case_bool_decide.
  - intros (c & -> & [[Htext [ps Hps]]|Hexec]).
    + rewrite Hps. destruct Htext as [-> | ->]; by eexists.
    + rewrite Hexec. by eexists.
Qed.

Lemma messageChunks_conversionError (m : RawNode) (e : JsError) :
  messageChunks m = Throw e ↔ conversionError m e.
Proof.
  unfold messageChunks, conversionError. split.
  - destruct (raw_content m) as [c|]; [|intros [= <-]; by left].
    intros Hm. right. exists c. split; [done|].
    destruct (bool_decide (content_type c = "text") ||
              bool_decide (content_type c = "multimodal_text")) eqn:Htext.
    + left. destruct (parts c); [done|]. injection Hm as <-. split; [|done].
      apply orb_true_iff in Htext as [?%bool_decide_eq_true|?%bool_decide_eq_true]; auto.
    + right. apply orb_false_iff in Htext as [?%bool_decide_eq_false ?%bool_decide_eq_false].
      case_bool_decide; [done|]. by injection Hm as <-.
  - intros [[-> ->]|(c & -> & [(Htext & -> & ->)|(H1 & H2 & H3 & ->)])]; [done| |].
    + by destruct Htext as [-> | ->].
    + by rewrite !bool_decide_eq_false_2.
Qed.

(** X13: the conversion of a chain succeeds exactly when every node of the
    chain has a content of type [text] or [multimodal_text] with [parts], or
    of type [execution_output].  Otherwise it fails at the first node that
    has not, and returns none of the chunks of the nodes before it: with a
    [TypeError] when that node has no [content], or no [parts] in a [text]
    or [multimodal_text] content, and with the unexpected-content-type error
    carrying the type when the content has any other type. *)
Theorem buildSingleAssistantMessage_result (chain : list RawNode) :
  ((∃ chunks, buildSingleAssistantMessage chain = Ok chunks) ↔ Forall convertible chain) ∧
  (∀ e,
     buildSingleAssistantMessage chain = Throw e ↔
     ∃ before m after,
       chain = before ++ m :: after ∧ Forall convertible before ∧
       conversionError m e).
Proof.
  split.
  - split.
    + intros [chunks (css & Hcss & _)%buildSingleAssistantMessage_concat].
      induction Hcss as [|m cs chain' css Hm _ IH]; constructor; [|done].
      apply recognised_convertible. by exists cs.
    + intros Hall. apply buildSingleAssistantMessage_recognised.
      eapply Forall_impl; [exact Hall|]. intros ?. apply recognised_convertible.
  - intros e. rewrite buildSingleAssistantMessage_Throw.
    split; intros (before & m & after & -> & Hall & Hm); exists before, m, after;
      (split; [done|]); split.
    + eapply Forall_impl; [exact Hall|]. intros ?. apply recognised_convertible.
    + by apply messageChunks_conversionError.
    + eapply Forall_impl; [exact Hall|]. intros ?. apply recognised_convertible.
    + by apply messageChunks_conversionError.
Qed.

(** ** Asset pointers *)

Lemma replace_unfold (s pat rep : string) :
  replace s pat rep =
  if String.prefix pat s
  then rep +:+ String.substring (String.length pat) (String.length s - String.length pat) s
  else match s with
       | EmptyString => EmptyString
       | String c s' => String c (replace s' pat rep)
       end.
Proof. by destruct s. Qed.

Lemma prefix_app (pat s : string) : String.prefix pat (pat +:+ s) = true.
Proof.
  induction pat as [|a pat IH]; simpl; [by destruct s|].
  by destruct (Ascii.ascii_dec a a).
Qed.

Lemma substring_all (s : string) : String.substring 0 (String.length s) s = s.
Proof. induction s as [|c s IH]; simpl; [done | by rewrite IH]. Qed.

Lemma substring_app (pat s : string) :
  String.substring (String.length pat)
    (String.length (pat +:+ s) - String.length pat) (pat +:+ s) = s.
Proof.
  induction pat as [|a pat IH]; simpl.
  - rewrite Nat.sub_0_r. apply substring_all.
  - apply IH.
Qed.

Lemma replace_prefix (pat rep s : string) : replace (pat +:+ s) pat rep = rep +:+ s.
Proof. by rewrite replace_unfold, prefix_app, substring_app. Qed.

Lemma replace_absent (s pat rep : string) :
  includes s pat = false → replace s pat rep = s.
Proof.
  induction s as [|c s IH]; simpl.
  - by intros [-> _]%orb_false_iff.
  - intros [-> Hs]%orb_false_iff. by rewrite IH.
Qed.

(** X14: an object part whose asset pointer starts with [file-service://]
    becomes an image chunk holding the rest of the pointer, and a pointer in
    which [file-service://] does not occur is kept whole. *)
Theorem partChunk_asset_pointer (pointer : string) :
  partChunk (PartObject ("file-service://" +:+ pointer))
    = mkContentPart "image" (Str pointer) None ∧
  (includes pointer "file-service://" = false →
   partChunk (PartObject pointer) = mkContentPart "image" (Str pointer) None).
Proof.
  split.
  - unfold partChunk. by rewrite replace_prefix.
  - intros Habsent. unfold partChunk. by rewrite replace_absent.
Qed.

(** ** Errors of the merge *)

(** X15: on an image-generation tool node with exactly one listed child, the
    merge raises the child-must-be-assistant assertion when the child is
    authored by anyone else, and a [TypeError] when the listed child has no
    entry; on an assistant node addressed to [python] with exactly one child
    it returns the node as it is. *)
Theorem mergeSubsequentAssistantMessages_other_outcomes
    (fuel : nat) (this : MergedMessage) (a : Author) (childId : string) :
  author this = Some a → childrenIds this = Some [childId] →
  (role a = "tool" → name a = Some "dalle.text2im" →
     (∀ child childAuthor,
        children this ≫= (.!! childId) = Some child →
        author child = Some childAuthor → role childAuthor ≠ "assistant" →
        mergeSubsequentAssistantMessages fuel this = Some (Throw DalleChildNotAssistant)) ∧
     (children this ≫= (.!! childId) = None →
        mergeSubsequentAssistantMessages fuel this = Some (Throw TypeError))) ∧
  (role a = "assistant" → recipient this = Some "python" →
     mergeSubsequentAssistantMessages fuel this = Some (Ok this)).
Proof.
  intros Ha Hids. unfold mergeSubsequentAssistantMessages. rewrite Ha, Hids. split.
  - intros Hrole Hname. rewrite !bool_decide_eq_true_2 by done. simpl. split.
    + intros child childAuthor -> -> Hne. by rewrite bool_decide_eq_true_2.
    + by intros ->.
  - intros Hrole Hrecipient.
    rewrite (bool_decide_eq_false_2 (role a = "tool")) by congruence. simpl.
    by rewrite !bool_decide_eq_true_2.
Qed.

(** ** Errors of the traversal *)

Lemma flagChildren_Throw (isMessageHidden : MergedMessage → bool)
    (traverse : MergedMessage → list string → option (Result (list string)))
    (ids : list string) (thisChildren : option (gmap string MergedMessage))
    (idsToRemove : list string) (e : JsError) :
  (∀ c acc e', traverse c acc = Some (Throw e') → e' = TypeError) →
  flagChildren isMessageHidden traverse ids thisChildren idsToRemove = Some (Throw e) →
  e = TypeError.
Proof.
  intros Htraverse. revert idsToRemove.
  induction ids as [|k ids IH]; intros acc; simpl; [done|].
  destruct (thisChildren ≫= (.!! k)) as [child|]; [|by intros [= <-]].
  destruct (traverse child _) as [[acc'|e']|] eqn:Hchild;
    [|intros [= <-]; by eapply Htraverse|done].
  apply IH.
Qed.

Lemma flagFrom_Throw (isMessageHidden : MergedMessage → bool) (fuel : nat)
    (this : MergedMessage) (idsToRemove : list string) (e : JsError) :
  flagFrom isMessageHidden fuel this idsToRemove = Some (Throw e) → e = TypeError.
Proof.
  revert this idsToRemove e. induction fuel as [|fuel IH]; intros this acc e; simpl;
    (destruct (childrenIds this) as [ids|]; [|by intros [= <-]]); [done|].
  apply flagChildren_Throw. intros c acc' e'. apply IH.
Qed.

Lemma flagChildren_total (isMessageHidden : MergedMessage → bool)
    (traverse : MergedMessage → list string → option (Result (list string)))
    (ids : list string) (thisChildren : option (gmap string MergedMessage))
    (idsToRemove : list string) :
  (∀ k c acc, thisChildren ≫= (.!! k) = Some c → is_Some (traverse c acc)) →
  is_Some (flagChildren isMessageHidden traverse ids thisChildren idsToRemove).
Proof.
  intros Htraverse. revert idsToRemove.
  induction ids as [|k ids IH]; intros acc; simpl; [by eexists|].
  destruct (thisChildren ≫= (.!! k)) as [child|] eqn:Hk; [|by eexists].
  destruct (Htraverse k child (if isMessageHidden child then acc ++ [message_id child] else acc) Hk)
    as [[acc'|e] ->]; [apply IH | by eexists].
Qed.

Lemma flagFrom_total (isMessageHidden : MergedMessage → bool) (fuel : nat)
    (this : MergedMessage) (idsToRemove : list string) :
  messageHeight this ≤ fuel → is_Some (flagFrom isMessageHidden fuel this idsToRemove).
Proof.
  revert this idsToRemove. induction fuel as [|fuel IH]; intros this acc Hh.
  { destruct this; simpl in Hh; lia. }
  simpl. destruct (childrenIds this) as [ids|]; [|by eexists].
  apply flagChildren_total. intros k c acc' Hc. apply IH.
  destruct (children this) as [kids|] eqn:Hkids; [|done]. simpl in Hc.
  assert (Hle : messageHeight this ≤ S fuel) by done.
  exact (proj1 (messageHeight_le this _) Hle kids k c Hkids Hc).
Qed.

Lemma flagChildren_dangling (isMessageHidden : MergedMessage → bool)
    (traverse : MergedMessage → list string → option (Result (list string)))
    (ids : list string) (thisChildren : option (gmap string MergedMessage))
    (idsToRemove : list string) (k : string) (r : Result (list string)) :
  k ∈ ids → thisChildren ≫= (.!! k) = None →
  flagChildren isMessageHidden traverse ids thisChildren idsToRemove = Some r →
  ∃ e, r = Throw e.
Proof.
  intros Hk Hnone. revert idsToRemove.
  induction ids as [|k0 ids IH]; intros acc; simpl.
  { by apply elem_of_nil in Hk. }
  destruct (thisChildren ≫= (.!! k0)) as [child|] eqn:Hk0; [|intros [= <-]; by eexists].
  destruct (traverse child _) as [[acc'|e]|]; [|intros [= <-]; by eexists|done].
  apply elem_of_cons in Hk as [->|Hk]; [congruence|]. by apply IH.
Qed.

(** X16: the traversal always returns; the only error it raises is a
    [TypeError]; it raises it when [childrenIds] is not set and when a
    listed child id has no entry in [children]. *)
Theorem traverseAndFlagMessagesToRemove_errors (isMessageHidden : MergedMessage → bool)
    (this : MergedMessage) (idsToRemove : list string) :
  is_Some (traverseAndFlagMessagesToRemove isMessageHidden this idsToRemove) ∧
  (∀ e, traverseAndFlagMessagesToRemove isMessageHidden this idsToRemove
          = Some (Throw e) → e = TypeError) ∧
  (childrenIds this = None →
   traverseAndFlagMessagesToRemove isMessageHidden this idsToRemove
     = Some (Throw TypeError)) ∧
  (∀ ids k,
     childrenIds this = Some ids → k ∈ ids → children this ≫= (.!! k) = None →
     traverseAndFlagMessagesToRemove isMessageHidden this idsToRemove
       = Some (Throw TypeError)).
Proof.
  unfold traverseAndFlagMessagesToRemove.
  split; [by apply flagFrom_total|]. split; [intros e; apply flagFrom_Throw|]. split.
  - intros Hids. destruct (messageHeight this); simpl; by rewrite Hids.
  - intros ids k Hids Hk Hnone.
    destruct (flagFrom_total isMessageHidden (messageHeight this) this idsToRemove)
      as [r Hr]; [done|].
    rewrite Hr. destruct r as [acc|e]; [|by rewrite (flagFrom_Throw _ _ _ _ _ Hr)].
    exfalso. destruct (messageHeight this) as [|fuel] eqn:Hh;
      [destruct this; simpl in Hh; lia|].
    simpl in Hr. rewrite Hids in Hr.
    by destruct (flagChildren_dangling _ _ _ _ _ _ _ Hk Hnone Hr).
Qed.

(** * The further properties at the sample inputs *)

(** The turn whose second outgoing id names no node: the first branch is
    kept and the aggregation stops with a [TypeError]. *)
Lemma newMergedMessage_empty_chain_witness :
  validateAndExtractLinkedList gappedTurn "gone" = Some (Ok []) ∧
  ∃ m log,
    newMergedMessage gappedTurn = Some (m, log ++ [FailedAssistantMessages TypeError]) ∧
    is_Some (children m).
Proof.
  destruct (newMergedMessage_empty_chain gappedTurn 1 "gone")
    as (Hv & _ & m & log & e & Hnew & _ & Hok).
  - reflexivity.
  - left. vm_compute. reflexivity.
  - eassert (Hbs : exploreBranches gappedTurn (raw_childrenIds gappedTurn) = Some (Ok _))
      by (vm_compute; reflexivity).
    destruct (Hok _ Hbs) as (_ & _ & -> & kids & thrown & _ & Hkids & _).
    split; [exact Hv|]. exists m, log. split; [exact Hnew|].
    rewrite Hkids. eexists. reflexivity.
Defined.

Lemma Paired_leafMessage (id : string) : Paired (leafMessage id).
Proof.
  eapply (paired _ [] ∅); [done..| |].
  - intros k. rewrite lookup_empty. split; [by intros ?%elem_of_nil | by intros [? ?]].
  - intros k c. by rewrite lookup_empty.
Qed.

Lemma Paired_messageY : Paired messageY.
Proof.
  eapply (paired _ ["G"] {[ "G" := leafMessage "G" ]}); [done..| |].
  - intros k. rewrite list_elem_of_singleton. split.
    + intros ->. by rewrite lookup_singleton_eq.
    + by intros [c [-> _]%lookup_singleton_Some].
  - intros k c [_ <-]%lookup_singleton_Some. apply Paired_leafMessage.
Qed.

Lemma Paired_messageX : Paired messageX.
Proof.
  eapply (paired _ ["Y"; "Z"] {[ "Y" := messageY; "Z" := leafMessage "Z" ]}); [done..| |].
  - intros k. rewrite !elem_of_cons. split.
    + intros [->|[->|?%elem_of_nil]]; [by eexists..|done].
    + intros [c [[-> _]|[_ [-> _]%lookup_singleton_Some]]%lookup_insert_Some]; auto.
  - intros k c [[_ <-]|[_ [_ <-]%lookup_singleton_Some]]%lookup_insert_Some;
      [apply Paired_messageY | apply Paired_leafMessage].
Qed.

Lemma Lists_leafMessage (id x : string) : ¬ Lists (leafMessage id) x.
Proof.
  inversion 1 as [? ids ? Hids Hin|? kids k c ? Hkids Hk _]; simplify_eq/=.
  all: first [by apply elem_of_nil in Hin | by rewrite lookup_empty in Hk].
Qed.

Lemma Lists_messageY (x : string) : Lists messageY x → x = "G".
Proof.
  inversion 1 as [? ids ? Hids Hin|? kids k c ? Hkids Hk Hc]; simplify_eq/=.
  - by apply list_elem_of_singleton in Hin.
  - apply lookup_singleton_Some in Hk as [_ <-]. by apply Lists_leafMessage in Hc.
Qed.

(** The follow-up turn is found in the tree built from the first turn. *)
Lemma findMessageById_constructed_witness :
  ∃ this log r,
    newMergedMessage firstTurn = Some (this, log) ∧
    findMessageById "u2" this = Some r ∧ findOutcome "u2" this r.
Proof.
  eassert (Hnew : newMergedMessage firstTurn = Some _) by (vm_compute; reflexivity).
  destruct (findMessageById_constructed _ _ _ "u2" Hnew) as (r & Hr & Hout).
  eexists _, _, r. split; [exact Hnew|]. split; [exact Hr | exact Hout].
Defined.

(** The regenerated turn, whose branch phase throws: a search for another
    id throws. *)
Lemma findMessageById_after_branch_failure_witness :
  findMessageById "a1" (withoutBranches regeneratedTurn) = Some (Throw TypeError).
Proof.
  apply (findMessageById_after_branch_failure regeneratedTurn _
           [FailedAssistantMessages BranchNotLinear] BranchNotLinear "a1").
  - vm_compute. reflexivity.
  - vm_compute. reflexivity.
  - discriminate.
Defined.

(** The first turn is built without a log entry. *)
Lemma newMergedMessage_empty_log_witness :
  ∃ this, newMergedMessage firstTurn = Some (this, []) ∧ fullyBuilt this.
Proof.
  eassert (Hnew : newMergedMessage firstTurn = Some (_, [])) by (vm_compute; reflexivity).
  destruct (newMergedMessage_empty_log _ _ Hnew) as [Hbuilt _].
  eexists. split; [exact Hnew|]. apply Hbuilt. constructor.
Defined.

(** The turn with an outgoing id without node logs a [TypeError]. *)
Lemma newMergedMessage_logged_errors_witness :
  ∃ m log,
    newMergedMessage gappedTurn = Some (m, log) ∧
    FailedAssistantMessages LeafChildNotUser ∉ log.
Proof.
  eassert (Hnew : newMergedMessage gappedTurn = Some _) by (vm_compute; reflexivity).
  destruct (newMergedMessage_logged_errors _ _ _ Hnew) as [_ Hnot].
  eexists _, _. split; [exact Hnew | exact Hnot].
Defined.

(** The first turn has one branch and at most one child. *)
Lemma newMergedMessage_children_witness :
  ∃ m log kids,
    newMergedMessage firstTurn = Some (m, log) ∧
    children m = Some (arrayProps kids) ∧ length kids ≤ 1.
Proof.
  eassert (Hnew : newMergedMessage firstTurn = Some _) by (vm_compute; reflexivity).
  match type of Hnew with
  | _ = Some (?m, _) =>
      eassert (Hprops : children m = Some _) by (vm_compute; reflexivity)
  end.
  destruct (newMergedMessage_children _ _ _ _ Hnew Hprops)
    as (kids & branches & _ & Hkids & Hlen & _).
  eexists _, _, kids. split; [exact Hnew|]. split; [|exact Hlen].
  rewrite <-Hkids. exact Hprops.
Defined.

(** The tree built from the first turn accepts none of the operations. *)
Lemma constructed_operations_throw_witness :
  ∃ this log,
    newMergedMessage firstTurn = Some (this, log) ∧
    deleteChildMessageById 1 "u2" true this = Some (Throw TypeError) ∧
    mergeSubsequentAssistantMessages 0 this = Some (Throw TypeError).
Proof.
  eassert (Hnew : newMergedMessage firstTurn = Some _) by (vm_compute; reflexivity).
  destruct (constructed_operations_throw _ _ _ Hnew) as (Hdel & _ & Hmerge).
  eexists _, _. split; [exact Hnew|]. split; [apply Hdel | apply Hmerge].
Defined.

(** With [G] hidden, the traversal of [Y] adds the id of [G]. *)
Lemma traverseAndFlagMessagesToRemove_spec_witness :
  ∃ flagged,
    traverseAndFlagMessagesToRemove hidesG messageY ["old"]
      = Some (Ok (["old"] ++ flagged)) ∧
    "G" ∈ flagged.
Proof.
  destruct (traverseAndFlagMessagesToRemove_spec hidesG messageY ["old"] Paired_messageY)
    as (flagged & Hrun & Hflagged).
  exists flagged. split; [exact Hrun|]. apply Hflagged.
  exists (leafMessage "G"). split; [|split; reflexivity].
  eapply (below_child messageY ["G"] _ "G"); [reflexivity..|left|reflexivity].
Defined.

(** [Q] is listed nowhere below [Y]. *)
Lemma deleteChildMessageById_unlisted_witness :
  deleteChildMessageById (messageHeight messageY) "Q" true messageY = Some (Ok messageY).
Proof.
  apply (deleteChildMessageById_unlisted "Q" true messageY Paired_messageY).
  intros Hl. apply Lists_messageY in Hl. discriminate Hl.
Defined.

(** A recursive delete below a node that lists an id without entry. *)
Lemma deleteChildMessageById_errors_witness :
  deleteChildMessageById 1 "Q" true danglingMessage = Some (Throw TypeError).
Proof.
  apply (proj2 (deleteChildMessageById_errors 1 "Q" danglingMessage) ["K"] "K").
  - reflexivity.
  - intros H. apply list_elem_of_singleton in H. discriminate H.
  - left.
  - reflexivity.
  - vm_compute. lia.
Defined.

(** Deleting [G] below [Y] leaves a paired tree. *)
Lemma deleteChildMessageById_keeps_pairing_witness :
  ∃ this',
    deleteChildMessageById (messageHeight messageY) "G" false messageY = Some (Ok this') ∧
    Paired this'.
Proof. apply (deleteChildMessageById_keeps_pairing "G" false messageY Paired_messageY). Defined.

(** Deleting [G], two levels below [X], rewrites [Y] only. *)
Lemma deleteChildMessageById_two_levels_down_witness :
  ∃ c',
    deleteChildMessageById 0 "G" false messageY = Some (Ok c') ∧
    deleteChildMessageById 3 "G" true messageX =
      Some (Ok (setChildren messageX (Some ["Y"; "Z"])
                  (Some (<["Y":=c']> {[ "Y" := messageY; "Z" := leafMessage "Z" ]})))).
Proof.
  destruct (deleteChildMessageById_two_levels_down 3 "G" "Y" messageX messageY
              ["Y"; "Z"] ["G"] {[ "Y" := messageY; "Z" := leafMessage "Z" ]})
    as (c' & Hc' & _ & Hdel).
  - apply Paired_messageX.
  - vm_compute. lia.
  - reflexivity.
  - reflexivity.
  - apply (bool_decide_unpack _). vm_compute. reflexivity.
  - apply (bool_decide_unpack _). vm_compute. reflexivity.
  - vm_compute. reflexivity.
  - reflexivity.
  - left.
  - intros k' c'0 Hne [[Heq _]|[_ [_ <-]%lookup_singleton_Some]]%lookup_insert_Some.
    + by destruct Hne.
    + apply Lists_leafMessage.
  - exists c'. split; [exact Hc' | exact Hdel].
Defined.

(** Deleting [X] below [P] twice. *)
Lemma deleteChildMessageById_again_witness :
  ∃ this',
    deleteChildMessageById 0 "X" false messageP = Some (Ok this') ∧
    deleteChildMessageById 0 "X" false this' = Some (Ok this').
Proof.
  eassert (Hdel : deleteChildMessageById 0 "X" false messageP = Some (Ok _))
    by (vm_compute; reflexivity).
  destruct (deleteChildMessageById_again 0 0 "X" _ _ Hdel) as [_ Hagain].
  eexists. split; [exact Hdel | exact Hagain].
Defined.

(** A pointer of another scheme is kept whole. *)
Lemma partChunk_asset_pointer_witness :
  partChunk (PartObject "sediment://file_1") =
    mkContentPart "image" (Str "sediment://file_1") None.
Proof. apply (proj2 (partChunk_asset_pointer "sediment://file_1")). vm_compute. reflexivity. Defined.

(** An image-generation node whose single child is authored by the user,
    and a code-interpreter node with one child. *)
Lemma mergeSubsequentAssistantMessages_other_outcomes_witness :
  mergeSubsequentAssistantMessages 0 dalleWithUserChild = Some (Throw DalleChildNotAssistant) ∧
  mergeSubsequentAssistantMessages 0 (pythonMessage ["A"]) = Some (Ok (pythonMessage ["A"])).
Proof.
  split.
  - destruct (mergeSubsequentAssistantMessages_other_outcomes 0 dalleWithUserChild
                (mkAuthor "tool" (Some "dalle.text2im")) "A" eq_refl eq_refl)
      as [Hdalle _].
    destruct (Hdalle eq_refl eq_refl) as [Hchild _].
    apply (Hchild userAuthoredChild (mkAuthor "user" None)); [reflexivity..|discriminate].
  - destruct (mergeSubsequentAssistantMessages_other_outcomes 0 (pythonMessage ["A"])
                (mkAuthor "assistant" None) "A" eq_refl eq_refl)
      as [_ Hpython].
    apply Hpython; reflexivity.
Defined.
